(** * wordbox: Letter Boxed word filter and two-word pair finder

    A shallow embedding of [filter.py] (the validity matcher built around one
    regular expression) and [filter_pairs.py] (the first-letter indexed pair
    search), with the properties stated about them.

    Python strings are sequences of Unicode code points: a character is a
    code point in [N] and a [str] a list of them.  The parts of CPython the
    two scripts rely on but do not contain (the Unicode tables behind
    [str.isalpha], [str.lower], [str.strip] and the case folding of [re])
    are a parameter, the class [Unicode]; what the proofs need of them is
    collected in [UnicodeLaws]. *)

From Stdlib Require Import ZArith Lia Ascii String.
From stdpp Require Import base list sorting strings pretty gmap lexico.

Local Open Scope N_scope.

(** ** Characters and strings *)

Abbreviation char := N (only parsing).
Abbreviation str := (list N) (only parsing).

(** The code points of a literal, to write words in examples. *)
Fixpoint lit (s : string) : str :=
  match s with
  | EmptyString => []
  | String a s' => N_of_ascii a :: lit s'
  end.

Definition is_AZ (c : char) : bool := (65 <=? c) && (c <=? 90).
Definition is_az (c : char) : bool := (97 <=? c) && (c <=? 122).
Definition ascii_lower (c : char) : char := if is_AZ c then c + 32 else c.
Definition is_letter (c : char) : bool := is_AZ c || is_az c.

Definition NEWLINE : char := 10.

(** ** The Unicode tables of the runtime *)

Class Unicode := {
  (** [ch.isalpha()] for a one-character string *)
  py_isalpha : char → bool;
  (** the characters [str.strip()] removes *)
  py_isspace : char → bool;
  (** [s.lower()]; one character may lower to several *)
  py_lower : str → str;
  (** the simple lower-case mapping [re] folds with under IGNORECASE *)
  sre_lower : char → char;
  (** the other characters of equal upper case that the [re] compiler adds to
      a folded literal *)
  sre_fixes : char → list char;
}.

Class UnicodeLaws (U : Unicode) : Prop := {
  isalpha_ascii c : c < 128 → py_isalpha c = is_AZ c || is_az c;
  lower_ascii s : Forall (λ c, c < 128) s → py_lower s = ascii_lower <$> s;
  sre_lower_ascii c : c < 128 → sre_lower c = ascii_lower c;
  sre_fixes_ascii c d : c < 128 → d ∈ sre_fixes c → 128 ≤ d;
  sre_lower_of_lower c d : py_lower [c] = [d] → d < 128 → sre_lower c = d;
  isspace_not_alpha c : py_isspace c = true → py_isalpha c = false;
}.

(** A fragment of CPython's tables: ASCII, and the five characters
    U+0130 (I with dot above), U+0131 (dotless i), U+017F (long s),
    U+0307 (combining dot above) and U+212A (Kelvin sign) with the values
    CPython gives them.  Every other code point is left caseless and
    non-alphabetic, so results computed with this instance are CPython's only
    on strings over the fragment. *)
Definition frag_isalpha (c : char) : bool :=
  is_AZ c || is_az c || bool_decide (c ∈ [304; 305; 383; 8490]).
Definition frag_isspace (c : char) : bool :=
  ((9 <=? c) && (c <=? 13)) || ((28 <=? c) && (c <=? 32)).
Definition frag_lower1 (c : char) : str :=
  if decide (c = 304) then [105; 775]
  else if decide (c = 8490) then [107]
  else [ascii_lower c].
Definition frag_sre_lower (c : char) : char :=
  if decide (c = 304) then 105
  else if decide (c = 8490) then 107
  else ascii_lower c.
Definition frag_sre_fixes (c : char) : list char :=
  if decide (c = 105) then [305]
  else if decide (c = 305) then [105]
  else if decide (c = 115) then [383]
  else if decide (c = 383) then [115]
  else [].

Definition cpython_fragment : Unicode := {|
  py_isalpha := frag_isalpha;
  py_isspace := frag_isspace;
  py_lower := λ s, s ≫= frag_lower1;
  sre_lower := frag_sre_lower;
  sre_fixes := frag_sre_fixes;
|}.

(** ** Regular expressions, as backtracking matchers

    A pattern denotes a matcher in continuation-passing style: it is given
    the state of the match and the matcher [k] of what follows it, and
    answers whether some way of matching itself lets [k] succeed.  Only the
    constructs the two patterns of [filter.py] use are here. *)

Record mstate := MState {
  pos : nat;            (* characters consumed so far *)
  rest : str;           (* input still to read *)
  grp1 : option str;    (* text captured by group 1 *)
}.

Definition matcher := mstate → (mstate → bool) → bool.

Section regex.
Context {U : Unicode}.

(** Input character [c] against the literal [d] of a class; [ic] is the
    IGNORECASE flag. *)
Definition lit_match (ic : bool) (c d : char) : bool :=
  if ic then
    bool_decide (sre_lower c = sre_lower d)
    || bool_decide (sre_lower c ∈ sre_fixes (sre_lower d))
  else bool_decide (c = d).

(** [[...]]: [re.escape] makes every character of the class a literal. *)
Definition in_class (ic : bool) (cs : str) (c : char) : bool :=
  existsb (lit_match ic c) cs.

(** A backreference compares folded characters, without the fixes. *)
Definition ref_match (ic : bool) (a b : char) : bool :=
  if ic then bool_decide (sre_lower a = sre_lower b) else bool_decide (a = b).

(** [.] without DOTALL *)
Definition re_dot (c : char) : bool := negb (c =? NEWLINE).

(** [^] without MULTILINE *)
Definition re_bol : matcher := λ s k, bool_decide (pos s = 0%nat) && k s.

(** [$] without MULTILINE: at the end, or before a newline that ends the
    input *)
Definition re_eol : matcher := λ s k,
  (bool_decide (rest s = []) || bool_decide (rest s = [NEWLINE])) && k s.

(** one character satisfying [p] *)
Definition re_one (p : char → bool) : matcher := λ s k,
  match rest s with
  | c :: r => p c && k (MState (S (pos s)) r (grp1 s))
  | [] => false
  end.

Definition re_empty : matcher := λ s k, k s.
Definition re_seq (m1 m2 : matcher) : matcher := λ s k, m1 s (λ s', m2 s' k).

(** [m{n}] *)
Fixpoint re_times (n : nat) (m : matcher) : matcher :=
  match n with
  | O => re_empty
  | S n' => re_seq m (re_times n' m)
  end.

(** [(?!m)] *)
Definition re_not_ahead (m : matcher) : matcher := λ s k,
  negb (m s (λ _, true)) && k s.

(** [p{lo,}] for a one-character item [p]: greedy, giving characters back
    while the continuation fails. *)
Fixpoint rep_loop (p : char → bool) (lo i : nat) (r : str) (g : option str)
    (k : mstate → bool) : bool :=
  match r with
  | c :: r' =>
      (p c && rep_loop p (pred lo) (S i) r' g k)
      || (bool_decide (lo = 0%nat) && k (MState i r g))
  | [] => bool_decide (lo = 0%nat) && k (MState i [] g)
  end.
Definition re_rep_min (lo : nat) (p : char → bool) : matcher := λ s k,
  rep_loop p lo (pos s) (rest s) (grp1 s) k.

(** [(m)], the first group *)
Definition re_group1 (m : matcher) : matcher := λ s k,
  m s (λ s', k (MState (pos s') (rest s')
                   (Some (take (pos s' - pos s) (rest s))))).

(** [\1] *)
Fixpoint ref_loop (ic : bool) (g r : str) : option str :=
  match g, r with
  | [], _ => Some r
  | a :: g', b :: r' => if ref_match ic a b then ref_loop ic g' r' else None
  | _ :: _, [] => None
  end.
Definition re_backref1 (ic : bool) : matcher := λ s k,
  match grp1 s with
  | Some g =>
      match ref_loop ic g (rest s) with
      | Some r => k (MState (pos s + length g) r (grp1 s))
      | None => false
      end
  | None => false
  end.

(** [Pattern.fullmatch] *)
Definition fullmatch (rx : matcher) (w : str) : bool :=
  rx (MState 0 w None) (λ s, bool_decide (rest s = [])).
End regex.

(** The characters of a class range [a-b] *)
Definition char_range (a b : char) : str :=
  N.of_nat <$> seq (N.to_nat a) (S (N.to_nat b - N.to_nat a)).

(** [sorted(set(s))]: the distinct characters of [s] by code point. *)
Definition sorted_set (s : str) : str := merge_sort N.le (remove_dups s).

(** [s[a:b]] for [0 <= a <= b] *)
Definition slice (a b : nat) (s : str) : str := take (b - a) (drop a s).

(** Some two neighbouring characters of [w] are related by [R]. *)
Fixpoint has_adjacent (R : char → char → bool) (w : str) : bool :=
  match w with
  | c :: w' =>
      match w' with
      | c' :: _ => R c c' || has_adjacent R w'
      | [] => false
      end
  | [] => false
  end.

(** The exceptions the two scripts can raise: [ValueError] from
    [split_sides], and [IndexError] from indexing an empty word. *)
Inductive value_error := ValueError (msg : string).
Inductive index_error := IndexError.

Section strings.
Context {U : Unicode}.

(** [str.lstrip()], [str.rstrip()] and [str.strip()] *)
Fixpoint lstrip (s : str) : str :=
  match s with
  | c :: s' => if py_isspace c then lstrip s' else s
  | [] => []
  end.
Definition rstrip (s : str) : str := reverse (lstrip (reverse s)).
Definition strip (s : str) : str := rstrip (lstrip s).

(** [w.isalpha()]: every character alphabetic, and at least one *)
Definition str_isalpha (w : str) : bool :=
  negb (bool_decide (w = [])) && forallb py_isalpha w.

(** [ch.lower() in st] for a set [st] of one-character strings *)
Definition lower_in (ch : char) (st : gset N) : bool :=
  match py_lower [ch] with
  | [d] => bool_decide (d ∈ st)
  | _ => false
  end.

(** A string that does not start with white space. *)
Definition head_kept (s : str) : Prop :=
  match s with c :: _ => py_isspace c = false | [] => True end.
End strings.

(** ** filter.py *)

Module Filter.
Section filter.
Context {U : Unicode}.

(** [re.compile(r"[A-Za-z]")] *)
Definition ALPHA_RE : matcher :=
  re_one (in_class false (char_range 65 90 ++ char_range 97 122)).

Definition normalize_letters (s : str) : str :=
  s ≫= λ ch, if fullmatch ALPHA_RE [ch] then py_lower [ch] else [].

Definition split_sides (twelve : str) : value_error + list str :=
  if decide (length twelve ≠ 12%nat) then
    inl (ValueError ("Expected 12 letters after normalization; got "
                     +:+ pretty (length twelve) +:+ "."))
  else
    inr [slice 0 3 twelve; slice 3 6 twelve; slice 6 9 twelve;
         slice 9 12 twelve].

(** The pattern
    [^(?!.*([a-z])\1)(?!.*[edge]{2})...(?!.*[edge]{2})[allowed]{3,}$],
    compiled with IGNORECASE when [case_insensitive].  A class is taken to
    hold the characters of its string, which is how [re] reads
    [[escape(s)]] for a nonempty [s]; the sides [main] passes have three
    characters each.  For an empty [s] the text is [[]], which [re] does not
    read as an empty class: it takes the closing bracket as a member and
    reads on to the next one, and [re.compile] raises [re.error] when there
    is none or a group is left open (no side at all, an empty last side).
    The matcher stands for the compiled pattern of [nonempty_sides] only. *)
Definition build_letterboxed_regex (sides : list str)
    (case_insensitive : bool) : matcher :=
  let norm_sides := (λ s, sorted_set (py_lower s)) <$> sides in
  let allowed := sorted_set (concat norm_sides) in
  let allowed_cls := in_class case_insensitive allowed in
  let no_double :=
    re_not_ahead
      (re_seq (re_rep_min 0 re_dot)
         (re_seq (re_group1 (re_one (in_class case_insensitive
                                       (char_range 97 122))))
            (re_backref1 case_insensitive))) in
  let edge_lookaheads :=
    foldr re_seq re_empty
      ((λ edge, re_not_ahead
                  (re_seq (re_rep_min 0 re_dot)
                     (re_times 2 (re_one (in_class case_insensitive edge)))))
         <$> norm_sides) in
  re_seq re_bol
    (re_seq no_double
       (re_seq edge_lookaheads
          (re_seq (re_rep_min 3 allowed_cls) re_eol))).

(** The generator over the lines of the word list. *)
Fixpoint load_words (f : list str) : list str :=
  match f with
  | [] => []
  | line :: f' =>
      let w := strip line in
      if bool_decide (w = []) then load_words f' else w :: load_words f'
  end.

(** The loop of [main] over the words (lines 110-124); [valid] is the list
    built so far. *)
Fixpoint main_loop (rx : matcher) (allowed_set : gset N) (min_length : Z)
    (words : list str) (valid : list str) : list str :=
  match words with
  | [] => valid
  | raw :: words' =>
      let w := strip raw in
      if bool_decide (w = []) then
        main_loop rx allowed_set min_length words' valid
      else if (Z.of_nat (length w) <? min_length)%Z then
        main_loop rx allowed_set min_length words' valid
      else if negb (forallb (λ ch, lower_in ch allowed_set)
                      (List.filter py_isalpha w)) then
        main_loop rx allowed_set min_length words' valid
      else if negb (str_isalpha w) then
        main_loop rx allowed_set min_length words' valid
      else if fullmatch rx w then
        main_loop rx allowed_set min_length words' (valid ++ [w])
      else
        main_loop rx allowed_set min_length words' valid
  end.

(** The options the loop depends on; [--sort] and [--output] only say what
    is done with the list afterwards. *)
Record args := Args {
  letters : str;
  min_length : Z;
  case_sensitive : bool;
}.

(** What [main] has produced when it reaches the sort (line 126) or
    returns early: the exit code so far, the lines written to stderr, and
    the list [valid] (none when the square was refused). *)
Record outcome := Outcome {
  exit_code : Z;
  stderr : list string;
  valid : option (list str);
}.

Definition main (a : args) (wordlist : list str) : outcome :=
  let letters_norm := normalize_letters (letters a) in
  match split_sides letters_norm with
  | inl (ValueError e) => Outcome 2 ["Input error: " +:+ e] None
  | inr sides =>
      let note :=
        if decide (size (list_to_set letters_norm : gset N) ≠ 12%nat) then
          ["Note: the 12-letter set contains duplicates. Proceeding anyway."]
        else [] in
      let rx := build_letterboxed_regex sides (negb (case_sensitive a)) in
      let allowed_set : gset N := list_to_set (concat sides) in
      Outcome 0 note
        (Some (main_loop rx allowed_set (min_length a)
                 (load_words wordlist) []))
  end.
End filter.
End Filter.

(** ** filter_pairs.py *)

Module FilterPairs.
Section filter_pairs.
Context {U : Unicode}.

Definition normalize_letters (s : str) : str :=
  s ≫= λ ch, if py_isalpha ch then py_lower [ch] else [].

Definition split_sides (twelve : str) : value_error + list str :=
  if decide (length twelve ≠ 12%nat) then
    inl (ValueError ("Expected 12 letters after normalization; got "
                     +:+ pretty (length twelve) +:+ "."))
  else
    inr [slice 0 3 twelve; slice 3 6 twelve; slice 6 9 twelve;
         slice 9 12 twelve].

Fixpoint load_words_loop (f : list str) (words : list str) : list str :=
  match f with
  | [] => words
  | line :: f' =>
      let w := strip line in
      if bool_decide (w = []) then load_words_loop f' words
      else if negb (str_isalpha w) then load_words_loop f' words
      else load_words_loop f' (words ++ [py_lower w])
  end.
Definition load_words (f : list str) : list str := load_words_loop f [].

(** The first loop of [find_pairs]: [by_start[w[0]].append(w)] on a
    [defaultdict(list)]; [w[0]] raises on the empty string. *)
Fixpoint index_by_start (words : list str) (by_start : gmap N (list str))
    : index_error + gmap N (list str) :=
  match words with
  | [] => inr by_start
  | w :: words' =>
      match w with
      | [] => inl IndexError
      | w0 :: _ =>
          index_by_start words'
            (<[w0 := default [] (by_start !! w0) ++ [w]]> by_start)
      end
  end.

(** The inner loop, over the continuations of [a]. *)
Fixpoint extend_pairs (letters_set : gset N) (a : str) (cands : list str)
    (pairs : list (str * str)) : list (str * str) :=
  match cands with
  | [] => pairs
  | b :: cands' =>
      if decide (letters_set ⊆ list_to_set a ∪ list_to_set b) then
        extend_pairs letters_set a cands' (pairs ++ [(a, b)])
      else extend_pairs letters_set a cands' pairs
  end.

(** The outer loop; [a[-1]] raises on the empty string. *)
Fixpoint chain_pairs (by_start : gmap N (list str)) (letters_set : gset N)
    (words : list str) (pairs : list (str * str))
    : index_error + list (str * str) :=
  match words with
  | [] => inr pairs
  | a :: words' =>
      match last a with
      | None => inl IndexError
      | Some a_end =>
          chain_pairs by_start letters_set words'
            (extend_pairs letters_set a (default [] (by_start !! a_end))
               pairs)
      end
  end.

Definition find_pairs (words : list str) (letters_set : gset N)
    : index_error + list (str * str) :=
  match index_by_start words ∅ with
  | inl e => inl e
  | inr by_start => chain_pairs by_start letters_set words []
  end.

(** What [main] has when it reaches the sort (line 91) or returns early: the
    exit code so far, the lines printed, and the pairs found (none when the
    square was refused).  An [IndexError] of [find_pairs] is not caught. *)
Record outcome := Outcome {
  exit_code : Z;
  stdout : list string;
  pairs : option (list (str * str));
}.

Definition main (letters : str) (wordlist : list str)
    : index_error + outcome :=
  let letters_norm := normalize_letters letters in
  match split_sides letters_norm with
  | inl (ValueError e) => inr (Outcome 2 ["Input error: " +:+ e] None)
  | inr sides =>
      let letters_set : gset N := list_to_set (concat sides) in
      let words := load_words wordlist in
      let words :=
        List.filter
          (λ w, bool_decide (list_to_set w ⊆ letters_set)
                && bool_decide (3 ≤ length w)%nat) words in
      match find_pairs words letters_set with
      | inl e => inl e
      | inr pairs => inr (Outcome 0 [] (Some pairs))
      end
  end.
End filter_pairs.
End FilterPairs.

(** ** The pair search, as the specification words it

    The reference the indexed search is compared with: every word against
    every word, kept when the chain rule and the coverage rule hold. *)

Definition chain_rule (a b : str) : Prop :=
  is_Some (last a) ∧ last a = head b.

Definition coverage_rule (allowed : gset N) (a b : str) : Prop :=
  allowed ⊆ list_to_set a ∪ list_to_set b.

#[global] Instance chain_rule_dec a b : Decision (chain_rule a b).
Proof. unfold chain_rule. apply _. Defined.

#[global] Instance coverage_rule_dec allowed a b :
  Decision (coverage_rule allowed a b).
Proof. unfold coverage_rule. apply _. Defined.

Definition naive_pairs (words : list str) (allowed : gset N)
    : list (str * str) :=
  a ← words; b ← words;
  if decide (chain_rule a b ∧ coverage_rule allowed a b) then [(a, b)] else [].

(** ** The four invariants of a valid word, as the specification words them *)

Section validity.
Context {U : Unicode}.

(** Character [c] of a word is the letter [d] of the square: exactly so
    when matching is case-sensitive, after lowering otherwise. *)
Definition same_letter (ic : bool) (c d : char) : Prop :=
  py_isalpha c = true ∧ if ic then py_lower [c] = [d] else c = d.

Definition on_side (ic : bool) (side : str) (c : char) : Prop :=
  ∃ d, d ∈ side ∧ same_letter ic c d.

(** [c] and [c'] are consecutive in [w] *)
Definition adjacent (w : str) (c c' : char) : Prop :=
  ∃ pre post, w = pre ++ c :: c' :: post.

Record valid_word (ic : bool) (sides : list str) (min_length : Z)
    (w : str) : Prop := {
  inv_length : (min_length ≤ Z.of_nat (length w))%Z;
  inv_letters : ∀ c, c ∈ w → ∃ side, side ∈ sides ∧ on_side ic side c;
  inv_no_repeat : ∀ c c', adjacent w c c' → c ≠ c';
  inv_no_same_side : ∀ c c' side,
    adjacent w c c' → side ∈ sides →
    ¬ (on_side ic side c ∧ on_side ic side c');
}.
End validity.

(** ** Notions the statements are written with *)

Section pattern_classes.
Context {U : Unicode}.

(** The tests a stripped word [w] goes through in one turn of the loop of
    [main] in filter.py ([Filter.main_loop]), put together. *)
Definition loop_accepts (rx : matcher) (allowed_set : gset N) (min_length : Z)
    (w : str) : bool :=
  negb (bool_decide (w = []))
  && negb (Z.of_nat (length w) <? min_length)%Z
  && forallb (λ ch, lower_in ch allowed_set) (List.filter py_isalpha w)
  && str_isalpha w
  && fullmatch rx w.

(** The classes of the pattern. *)
Definition norm_sides_of (sides : list str) : list str :=
  (λ s, sorted_set (py_lower s)) <$> sides.
Definition allowed_of (sides : list str) : str :=
  sorted_set (concat (norm_sides_of sides)).

(** What the two kinds of lookahead search for. *)
Definition doubled (ic : bool) (c c' : char) : bool :=
  in_class ic (char_range 97 122) c && ref_match ic c c'.
Definition both_in (ic : bool) (edge : str) (c c' : char) : bool :=
  in_class ic edge c && in_class ic edge c'.
End pattern_classes.

(** ** Squares *)

(** Sides made of the letters a-z, as [normalize_letters] of filter.py leaves
    them. *)
Definition letter_sides (sides : list str) : Prop :=
  Forall (Forall (λ c, is_az c = true)) sides.

(** Sides of ASCII characters. *)
Definition ascii_sides (sides : list str) : Prop :=
  Forall (λ side, side ≠ [] ∧ Forall (λ c, c < 128) side) sides.

(** At least one side, and no side empty: every class of the pattern has a
    member, and [re.compile] accepts the pattern. *)
Definition nonempty_sides (sides : list str) : Prop :=
  sides ≠ [] ∧ Forall (λ side, side ≠ []) sides.

(** ** Sample data *)

Definition abc_sides : list str := [lit "abc"; lit "def"; lit "ghi"; lit "jkl"].
Definition abc_args (min_length : Z) (case_sensitive : bool) : Filter.args :=
  Filter.Args (lit "abcdefghijkl") min_length case_sensitive.
Definition dup_args : Filter.args := Filter.Args (lit "abc-ade-fgh-ijk") 3 false.
Definition dup_sides : list str := [lit "abc"; lit "ade"; lit "fgh"; lit "ijk"].
Definition sample_words : list str :=
  [lit "abcdefg"; lit "ghijkl"; lit "la"; lit "gfedcba"; lit "alkjihg"].
Definition sample_letters : gset N := list_to_set (lit "abcdefghijkl").

(** Literals in goals, as code points. *)
Ltac eval_lits :=
  unfold abc_sides;
  repeat match goal with
  | |- context [lit ?s] =>
      let x := eval vm_compute in (lit s) in change (lit s) with x
  end.

(** ** The rest of the two scripts: reading, sorting, writing

    What [Filter.main] and [FilterPairs.main] leave for later: the lines of
    the word list as the file object yields them, [list.sort] with its key,
    and the text printed and written.  The file system itself (a missing
    word list, the directory of the output file) and the decoding of the
    bytes are not modelled: a file is its text. *)

Definition CR : char := 13.
Definition SPACE : char := 32.

(** The lines a text file yields in universal-newlines mode: a line ends at
    "\n", "\r\n" or "\r", each read as "\n" and kept at the end of the line;
    what follows the last newline is a line of its own unless empty.  [cur]
    is the current line, reversed. *)
Fixpoint read_lines_from (cur : str) (text : str) : list str :=
  match text with
  | [] => match cur with [] => [] | _ :: _ => [reverse cur] end
  | c :: text' =>
      if decide (c = NEWLINE) then
        reverse (NEWLINE :: cur) :: read_lines_from [] text'
      else if decide (c = CR) then
        match text' with
        | c' :: text'' =>
            if decide (c' = NEWLINE) then
              reverse (NEWLINE :: cur) :: read_lines_from [] text''
            else reverse (NEWLINE :: cur) :: read_lines_from [] text'
        | [] => [reverse (NEWLINE :: cur)]
        end
      else read_lines_from (c :: cur) text'
  end.
Definition read_lines (text : str) : list str := read_lines_from [] text.

(** ["\n".join(ls)] *)
Fixpoint join_lines (ls : list str) : str :=
  match ls with
  | [] => []
  | [l] => l
  | l :: ls' => l ++ NEWLINE :: join_lines ls'
  end.

(** [out_text + ("\n" if out_text else "")] *)
Definition file_text (out_text : str) : str :=
  match out_text with [] => [] | _ :: _ => out_text ++ [NEWLINE] end.

(** [l.sort(key=key)]: the stable sort by [<] on the keys, which are compared
    as Python compares integers, strings and tuples of them (stdpp's
    [lexico]).  The result of a stable sort does not depend on how it is
    computed; here it is computed by insertion from the right. *)
Section list_sort.
Context {A K : Type} `{Lexico K, !StrictOrder (@lexico K _),
                       !TrichotomyT (@lexico K _)}.
Variable key : A → K.

Fixpoint sort_insert (x : A) (l : list A) : list A :=
  match l with
  | [] => [x]
  | y :: l' =>
      if decide (lexico (key y) (key x)) then y :: sort_insert x l'
      else x :: l
  end.

Definition list_sort (l : list A) : list A := foldr sort_insert [] l.

(** [x] may stand before [y] in a sorted list. *)
Definition key_le (x y : A) : Prop := ¬ lexico (key y) (key x).
End list_sort.

Inductive filter_sort := SortLength | SortAlpha.
Inductive pairs_sort := SortCombinedLen | SortPairsAlpha.

Module FilterScript.
Section filter_script.
Context {U : Unicode}.

(** The parsed arguments [args].  [output] is [args.output] as printed,
    that is the text [pathlib] renders the path with (it prints the option
    [./out.txt] as [out.txt]). *)
Record cli := Cli {
  core : Filter.args;
  sort : filter_sort;
  output : string;
}.

(** What a run leaves: the exit code, the texts printed to stdout, the lines
    printed to stderr, and the text of the output file if one was written. *)
Record run := Run {
  exit_code : Z;
  stdout : list str;
  stderr : list string;
  written : option str;
}.

(** [lambda x: (-len(x), x.lower())] *)
Definition length_key (x : str) : Z * str := (- Z.of_nat (length x), py_lower x)%Z.

(** Lines 126-129. *)
Definition sort_valid (by_ : filter_sort) (valid : list str) : list str :=
  match by_ with
  | SortLength => list_sort length_key valid
  | SortAlpha => list_sort py_lower valid
  end.

Definition main (c : cli) (wordlist : str) : run :=
  let o := Filter.main (core c) (read_lines wordlist) in
  match Filter.valid o with
  | None => Run (Filter.exit_code o) [] (Filter.stderr o) None
  | Some valid =>
      let valid := sort_valid (sort c) valid in
      let out_text := join_lines valid in
      Run 0 [out_text]
        (Filter.stderr o
         ++ ["Wrote " +:+ pretty (length valid) +:+ " words to " +:+ output c])
        (Some (file_text out_text))
  end.
End filter_script.
End FilterScript.

Module FilterPairsScript.
Section filter_pairs_script.
Context {U : Unicode}.

(** The parsed arguments [args]; [output], when given, is [args.output] as
    printed, that is the text [pathlib] renders the path with. *)
Record cli := Cli {
  letters : str;
  sort : pairs_sort;
  output : option string;
}.

(** What a run leaves: the exit code, the texts printed, and the text of
    the output file if one was written. *)
Record run := Run {
  exit_code : Z;
  stdout : list str;
  written : option str;
}.

(** [lambda ab: (-(len(ab[0]) + len(ab[1])), ab[0], ab[1])] *)
Definition combined_len_key (ab : str * str) : Z * (str * str) :=
  (- (Z.of_nat (length ab.1) + Z.of_nat (length ab.2)), (ab.1, ab.2))%Z.

(** Lines 91-94. *)
Definition sort_pairs (by_ : pairs_sort) (pairs : list (str * str))
    : list (str * str) :=
  match by_ with
  | SortCombinedLen => list_sort combined_len_key pairs
  | SortPairsAlpha => list_sort (λ ab : str * str, (ab.1, ab.2)) pairs
  end.

(** [f"{a} {b}"] *)
Definition pair_line (ab : str * str) : str := ab.1 ++ SPACE :: ab.2.

Definition main (c : cli) (wordlist : str) : index_error + run :=
  match FilterPairs.main (letters c) (read_lines wordlist) with
  | inl e => inl e
  | inr o =>
      match FilterPairs.pairs o with
      | None => inr (Run (FilterPairs.exit_code o)
                       (lit <$> FilterPairs.stdout o) None)
      | Some pairs =>
          let pairs := sort_pairs (sort c) pairs in
          let out_text := join_lines (pair_line <$> pairs) in
          match output c with
          | Some path =>
              inr (Run 0
                     [lit ("Wrote " +:+ pretty (length pairs)
                           +:+ " pairs to " +:+ path)]
                     (Some (file_text out_text)))
          | None => inr (Run 0 [out_text] None)
          end
      end
  end.
End filter_pairs_script.
End FilterPairsScript.

(** The orders the two sorts leave the lists in: [x] stands before [y]. *)
Section orders.
Context {U : Unicode}.

Definition valid_order (by_ : filter_sort) (x y : str) : Prop :=
  match by_ with
  | SortLength =>
      (length y < length x)%nat
      ∨ (length x = length y ∧ ¬ lexico (py_lower y) (py_lower x))
  | SortAlpha => ¬ lexico (py_lower y) (py_lower x)
  end.

(** [x] and [y] have the same sort key. *)
Definition valid_tied (by_ : filter_sort) (x y : str) : Prop :=
  match by_ with
  | SortLength => FilterScript.length_key x = FilterScript.length_key y
  | SortAlpha => py_lower x = py_lower y
  end.

#[export] Instance valid_tied_dec by_ x y : Decision (valid_tied by_ x y).
Proof. destruct by_; simpl; apply _. Defined.
End orders.

Definition combined_len (ab : str * str) : nat := (length ab.1 + length ab.2)%nat.

Definition pairs_order (by_ : pairs_sort) (p q : str * str) : Prop :=
  match by_ with
  | SortCombinedLen =>
      (combined_len q < combined_len p)%nat
      ∨ (combined_len p = combined_len q ∧ ¬ lexico q p)
  | SortPairsAlpha => ¬ lexico q p
  end.

(** A word as a line of a text file. *)
Definition as_line (w : str) : str := w ++ [NEWLINE].

(** * Evaluations *)

Example ex_norm :
  Filter.normalize_letters (U:=cpython_fragment) (lit "Abc-dEf ghi_JKL")
  = lit "abcdefghijkl".
Proof. vm_compute. reflexivity. Qed.

Example ex_split :
  Filter.split_sides (lit "abcdefghijk")
  = inl (ValueError "Expected 12 letters after normalization; got 11.").
Proof. vm_compute. reflexivity. Qed.

Example ex_rx1 :
  (λ w, fullmatch
          (Filter.build_letterboxed_regex (U:=cpython_fragment) abc_sides true)
          (lit w))
  <$> ["fad"; "face"; "adgj"; "ad"; "aad"; "adda"; "ADG"; "adx"; "gag"]
  = [true; false; true; false; false; false; true; false; true].
Proof. vm_compute. reflexivity. Qed.

(** A newline that ends the word satisfies [$], not [fullmatch]. *)
Example ex_rx_newline :
  fullmatch (Filter.build_letterboxed_regex (U:=cpython_fragment) abc_sides true)
    (lit "adg" ++ [NEWLINE]) = false.
Proof. vm_compute. reflexivity. Qed.

(** Under IGNORECASE the Kelvin sign is the letter k, and is kept by [main];
    the long s matches the class of s but is stopped by the test on
    [ch.lower()]. *)
Example ex_kelvin :
  Filter.valid (Filter.main (U:=cpython_fragment) (abc_args 3 false)
                  [[8490; 97; 100]; [383; 97; 100]])
  = Some [[8490; 97; 100]]
  ∧ fullmatch
      (Filter.build_letterboxed_regex (U:=cpython_fragment)
         [lit "abc"; lit "def"; lit "ghi"; lit "jks"] true) [383; 97; 100]
    = true.
Proof. split; vm_compute; reflexivity. Qed.

Example ex_rx2 :
  (λ w, fullmatch
          (Filter.build_letterboxed_regex (U:=cpython_fragment) abc_sides false)
          (lit w))
  <$> ["fad"; "face"; "adgj"; "ad"; "aad"; "adda"; "ADG"; "adx"; "gag"]
  = [true; false; true; false; false; false; false; false; true].
Proof. vm_compute. reflexivity. Qed.

Example ex_pairs :
  FilterPairs.find_pairs [lit "abcdefg"; lit "ghijkl"; lit "la"]
    (list_to_set (lit "abcdefghijkl"))
  = inr [(lit "abcdefg", lit "ghijkl")].
Proof. vm_compute. reflexivity. Qed.

(** ** Boolean list tests *)

Lemma forallb_pointwise {A} (f g : A → bool) l :
  (∀ x, f x = g x) → forallb f l = forallb g l.
Proof. intros E. induction l as [|x l IH]; simpl; [done|]. by rewrite E, IH. Qed.

Lemma forallb_elem_of {A} (f : A → bool) l :
  forallb f l = true ↔ ∀ x, x ∈ l → f x = true.
Proof.
  rewrite forallb_forall. by setoid_rewrite list_elem_of_In.
Qed.

Lemma elem_of_concat {A} (x : A) ls :
  x ∈ concat ls ↔ ∃ l, l ∈ ls ∧ x ∈ l.
Proof.
  rewrite list_elem_of_In, in_concat.
  by setoid_rewrite list_elem_of_In.
Qed.

Lemma forallb_elem_of_ext {A} (f g : A → bool) l :
  (∀ x, x ∈ l → f x = g x) → forallb f l = forallb g l.
Proof.
  induction l as [|x l IH]; intros E; simpl; [done|].
  rewrite E, IH; [done| |by left]. intros y Hy. apply E. by right.
Qed.

Lemma existsb_elem_of {A} (f : A → bool) l :
  existsb f l = true ↔ ∃ x, x ∈ l ∧ f x = true.
Proof.
  rewrite existsb_exists. by setoid_rewrite list_elem_of_In.
Qed.

(** ** What the matchers compute *)

Section regex_facts.
Context {U : Unicode}.

Lemma rep_loop_spec p lo i r g k :
  rep_loop p lo i r g k = true ↔
  ∃ n, (lo ≤ n ≤ length r)%nat ∧ forallb p (take n r) = true
       ∧ k (MState (i + n) (drop n r) g) = true.
Proof.
  revert lo i. induction r as [|c r IH]; intros lo i; simpl.
  - rewrite andb_true_iff, bool_decide_eq_true. split.
    + intros [-> Hk]. exists 0%nat. rewrite Nat.add_0_r. auto with lia.
    + intros (n & Hn & _ & Hk). assert (n = 0%nat) as -> by lia.
      rewrite Nat.add_0_r in Hk. rewrite drop_nil in Hk. split; [lia|done].
  - rewrite orb_true_iff, !andb_true_iff, bool_decide_eq_true, IH. split.
    + intros [[Hc (n & Hn & Hall & Hk)]|[-> Hk]].
      * exists (S n). simpl. rewrite Hc, Hall.
        replace (i + S n)%nat with (S i + n)%nat by lia. auto with lia.
      * exists 0%nat. rewrite Nat.add_0_r. simpl. auto with lia.
    + intros ([|n] & Hn & Hall & Hk); simpl in *.
      * right. rewrite Nat.add_0_r in Hk. split; [lia|done].
      * left. apply andb_true_iff in Hall as [Hc Hall]. split; [done|].
        exists n. rewrite Nat.add_succ_r in Hk. split; [lia|done].
Qed.

Lemma fullmatch_one p ch : fullmatch (re_one p) [ch] = p ch.
Proof. unfold fullmatch, re_one. simpl. apply andb_true_r. Qed.

(** [X{2}] for a one-character item *)
Lemma re_times_2_one p s k :
  re_times 2 (re_one p) s k =
  match rest s with
  | c :: c' :: r => p c && p c' && k (MState (S (S (pos s))) r (grp1 s))
  | _ => false
  end.
Proof.
  unfold re_times, re_seq, re_one, re_empty.
  destruct (rest s) as [|c [|c' r]]; simpl; try done.
  - by rewrite andb_false_r.
  - by rewrite andb_assoc.
Qed.

(** [(X)\1] for a one-character item *)
Lemma re_group_backref p ic s k :
  re_seq (re_group1 (re_one p)) (re_backref1 ic) s k =
  match rest s with
  | c :: c' :: r =>
      p c && ref_match ic c c'
      && k (MState (S (S (pos s))) r (Some [c]))
  | _ => false
  end.
Proof.
  unfold re_seq, re_group1, re_one, re_backref1.
  destruct (rest s) as [|c r]; simpl; [done|].
  replace (S (pos s) - pos s)%nat with 1%nat by lia. simpl.
  destruct r as [|c' r]; simpl; [by rewrite andb_false_r|].
  destruct (ref_match ic c c'); simpl.
  - rewrite andb_true_r. do 2 f_equal. f_equal. lia.
  - by rewrite andb_false_r.
Qed.

Lemma re_times_2_look p s :
  re_times 2 (re_one p) s (λ _, true) =
  match rest s with c :: c' :: _ => p c && p c' | _ => false end.
Proof.
  rewrite re_times_2_one. destruct (rest s) as [|c [|c' r]]; try done.
  by rewrite andb_true_r.
Qed.

Lemma re_group_backref_look p ic s :
  re_seq (re_group1 (re_one p)) (re_backref1 ic) s (λ _, true) =
  match rest s with
  | c :: c' :: _ => p c && ref_match ic c c'
  | _ => false
  end.
Proof.
  rewrite re_group_backref. destruct (rest s) as [|c [|c' r]]; try done.
  by rewrite andb_true_r.
Qed.

Lemma has_adjacent_spec R w :
  has_adjacent R w = true ↔
  ∃ pre c c' post, w = pre ++ c :: c' :: post ∧ R c c' = true.
Proof.
  induction w as [|c [|c' w] IH].
  - split; [done|]. intros (pre & ? & ? & ? & Hw & _). by destruct pre.
  - split; [done|]. intros (pre & ? & ? & ? & Hw & _).
    by destruct pre as [|? [|? ?]].
  - change (has_adjacent R (c :: c' :: w))
      with (R c c' || has_adjacent R (c' :: w)).
    rewrite orb_true_iff, IH. split.
    + intros [HR|(pre & d & d' & post & Hw & HR)].
      * by exists [], c, c', w.
      * exists (c :: pre), d, d', post. by rewrite Hw.
    + intros ([|x pre] & d & d' & post & Hw & HR); simplify_eq/=.
      * by left.
      * right. by exists pre, d, d', post.
Qed.

(** [.*m2] inside a lookahead, for [m2] a test of the next two characters. *)
Lemma dot_star_pair (m2 : matcher) R s :
  (∀ s', m2 s' (λ _, true) =
         match rest s' with c :: c' :: _ => R c c' | _ => false end) →
  re_seq (re_rep_min 0 re_dot) m2 s (λ _, true) = true ↔
  ∃ pre c c' post, rest s = pre ++ c :: c' :: post
                   ∧ forallb re_dot pre = true ∧ R c c' = true.
Proof.
  intros Hm2. unfold re_seq, re_rep_min. rewrite rep_loop_spec. split.
  - intros (n & Hn & Hdot & Hm). rewrite Hm2 in Hm. simpl in Hm.
    destruct (drop n (rest s)) as [|c [|c' post]] eqn:Hdrop; try done.
    exists (take n (rest s)), c, c', post.
    by rewrite <-Hdrop, take_drop.
  - intros (pre & c & c' & post & Hs & Hdot & HR).
    exists (length pre). rewrite Hm2, Hs, take_app_length. simpl.
    rewrite drop_app_length, length_app. auto with lia.
Qed.

Lemma dot_star_pair_line (m2 : matcher) R s :
  (∀ s', m2 s' (λ _, true) =
         match rest s' with c :: c' :: _ => R c c' | _ => false end) →
  forallb re_dot (rest s) = true →
  re_seq (re_rep_min 0 re_dot) m2 s (λ _, true) = has_adjacent R (rest s).
Proof.
  intros Hm2 Hdot. apply Bool.eq_iff_eq_true.
  rewrite (dot_star_pair m2 R s Hm2), has_adjacent_spec.
  split.
  - intros (pre & c & c' & post & Hs & _ & HR). by exists pre, c, c', post.
  - intros (pre & c & c' & post & Hs & HR). exists pre, c, c', post.
    rewrite Hs, forallb_app, andb_true_iff in Hdot. by destruct Hdot.
Qed.

Lemma foldr_not_ahead {A} (L : A → matcher) (es : list A) s k :
  foldr re_seq re_empty ((λ e, re_not_ahead (L e)) <$> es) s k =
  forallb (λ e, negb (L e s (λ _, true))) es && k s.
Proof.
  induction es as [|e es IH]; simpl; [done|].
  unfold re_seq at 1, re_not_ahead at 1. rewrite <-andb_assoc.
  f_equal. exact IH.
Qed.
End regex_facts.

(** ** The compiled pattern as a linear scan *)

Section pattern_facts.
Context {U : Unicode}.

Lemma tail_spec (p : char → bool) w :
  re_seq (re_rep_min 3 p) re_eol (MState 0 w None)
    (λ s, bool_decide (rest s = []))
  = bool_decide (3 ≤ length w)%nat && forallb p w.
Proof.
  apply Bool.eq_iff_eq_true. unfold re_seq, re_rep_min. simpl.
  rewrite rep_loop_spec, andb_true_iff, bool_decide_eq_true. split.
  - intros (n & Hn & Hall & Hk). unfold re_eol in Hk. simpl in Hk.
    apply andb_true_iff in Hk as [_ Hk%bool_decide_eq_true].
    assert (n = length w) as ->.
    { apply (f_equal length) in Hk. rewrite length_drop in Hk.
      simpl in Hk. lia. }
    rewrite firstn_all in Hall. split; [lia|done].
  - intros [Hlen Hall]. exists (length w). rewrite firstn_all, drop_all.
    unfold re_eol. simpl. auto with lia.
Qed.

Lemma fullmatch_build sides ic w :
  in_class ic (allowed_of sides) NEWLINE = false →
  fullmatch (Filter.build_letterboxed_regex sides ic) w =
    bool_decide (3 ≤ length w)%nat
    && forallb (in_class ic (allowed_of sides)) w
    && negb (has_adjacent (doubled ic) w)
    && forallb (λ edge, negb (has_adjacent (both_in ic edge) w))
         (norm_sides_of sides).
Proof.
  intros Hnl. unfold fullmatch, Filter.build_letterboxed_regex.
  fold (norm_sides_of sides). fold (allowed_of sides).
  unfold re_seq at 1, re_bol. simpl.
  unfold re_seq at 1, re_not_ahead at 1.
  unfold re_seq at 3. rewrite foldr_not_ahead, tail_spec.
  destruct (forallb (in_class ic (allowed_of sides)) w) eqn:Hall.
  2:{ by rewrite !andb_false_r. }
  assert (forallb re_dot w = true) as Hdot.
  { apply forallb_forall. intros c Hc.
    rewrite forallb_forall in Hall. specialize (Hall c Hc).
    unfold re_dot. apply negb_true_iff, N.eqb_neq. intros ->. congruence. }
  rewrite (dot_star_pair_line _ (doubled ic)); [|apply re_group_backref_look|done].
  rewrite andb_true_r.
  rewrite (andb_comm (bool_decide _)), <-!andb_assoc. f_equal.
  rewrite andb_comm. f_equal.
  apply forallb_pointwise. intros edge. f_equal.
  by rewrite (dot_star_pair_line _ (both_in ic edge));
    [|apply re_times_2_look|].
Qed.

(** Whatever the sides are, a matched word is made of the allowed class. *)
Lemma fullmatch_allowed sides ic w :
  fullmatch (Filter.build_letterboxed_regex sides ic) w = true →
  forallb (in_class ic (allowed_of sides)) w = true.
Proof.
  unfold fullmatch, Filter.build_letterboxed_regex.
  fold (norm_sides_of sides). fold (allowed_of sides).
  unfold re_seq at 1, re_bol. simpl.
  unfold re_seq at 1, re_not_ahead at 1.
  unfold re_seq at 3. rewrite foldr_not_ahead, tail_spec.
  rewrite !andb_true_iff. by intros [_ [_ [_ H]]].
Qed.
End pattern_facts.

(** ** ASCII letters and classes of them *)

Lemma is_az_spec c : is_az c = true ↔ 97 ≤ c ≤ 122.
Proof. unfold is_az. rewrite andb_true_iff, !N.leb_le. done. Qed.

Lemma is_AZ_spec c : is_AZ c = true ↔ 65 ≤ c ≤ 90.
Proof. unfold is_AZ. rewrite andb_true_iff, !N.leb_le. done. Qed.

Lemma is_letter_ascii c : is_letter c = true → c < 128.
Proof.
  unfold is_letter. rewrite orb_true_iff, is_az_spec, is_AZ_spec. lia.
Qed.

Lemma ascii_lower_is_az c : is_letter c = true → is_az (ascii_lower c) = true.
Proof.
  unfold is_letter, ascii_lower. destruct (is_AZ c) eqn:E; simpl.
  - intros _. apply is_AZ_spec in E. apply is_az_spec. lia.
  - done.
Qed.

Lemma ascii_lower_az c : is_az c = true → ascii_lower c = c.
Proof.
  intros H%is_az_spec. unfold ascii_lower.
  destruct (is_AZ c) eqn:E; [|done]. apply is_AZ_spec in E. lia.
Qed.

Lemma ascii_lower_not_AZ c : is_AZ (ascii_lower c) = false.
Proof.
  unfold ascii_lower. destruct (is_AZ c) eqn:E; [|done].
  apply is_AZ_spec in E. apply not_true_is_false. rewrite is_AZ_spec. lia.
Qed.

Lemma elem_of_char_range a b c : a ≤ b → c ∈ char_range a b ↔ a ≤ c ≤ b.
Proof.
  intros Hab. unfold char_range. rewrite list_elem_of_fmap. split.
  - intros (n & -> & Hn%elem_of_seq). lia.
  - intros Hc. exists (N.to_nat c). split; [by rewrite N2Nat.id|].
    apply elem_of_seq. lia.
Qed.

Lemma elem_of_sorted_set s c : c ∈ sorted_set s ↔ c ∈ s.
Proof.
  unfold sorted_set. by rewrite merge_sort_Permutation, elem_of_remove_dups.
Qed.

Section class_facts.
Context {U : Unicode}.

Lemma in_class_exact cs c : in_class false cs c = true ↔ c ∈ cs.
Proof.
  unfold in_class. rewrite existsb_elem_of. simpl. split.
  - by intros (d & Hd & ->%bool_decide_eq_true).
  - intros Hc. exists c. by rewrite bool_decide_eq_true.
Qed.

Lemma ALPHA_RE_one ch : fullmatch Filter.ALPHA_RE [ch] = is_letter ch.
Proof.
  unfold Filter.ALPHA_RE. rewrite fullmatch_one.
  apply Bool.eq_iff_eq_true. unfold is_letter.
  rewrite in_class_exact, elem_of_app, orb_true_iff.
  by rewrite !elem_of_char_range, is_AZ_spec, is_az_spec.
Qed.

Context {HU : UnicodeLaws U}.

Lemma lower_one_ascii c : c < 128 → py_lower [c] = [ascii_lower c].
Proof. intros Hc. rewrite lower_ascii; [done|]. by constructor. Qed.

Lemma lower_az s :
  Forall (λ c, is_az c = true) s → py_lower s = s.
Proof.
  intros Hs. rewrite lower_ascii.
  - induction Hs as [|c s Hc _ IH]; csimpl; [done|].
    by rewrite ascii_lower_az, IH.
  - eapply Forall_impl; [done|]. intros c Hc%is_az_spec. simpl. lia.
Qed.

(** A class of lower-case ASCII letters under IGNORECASE. *)
Lemma in_class_fold cs c :
  Forall (λ d, is_az d = true) cs →
  in_class true cs c = true ↔
  ∃ d, d ∈ cs ∧ (sre_lower c = d ∨ sre_lower c ∈ sre_fixes d).
Proof.
  intros Hcs. unfold in_class. rewrite existsb_elem_of. simpl.
  rewrite Forall_forall in Hcs.
  assert (∀ d, d ∈ cs → sre_lower d = d) as Hlow.
  { intros d Hd. specialize (Hcs d Hd). rewrite sre_lower_ascii.
    - by apply ascii_lower_az.
    - apply is_az_spec in Hcs. lia. }
  split.
  - intros (d & Hd & Hm). exists d. split; [done|].
    rewrite (Hlow d Hd) in Hm.
    apply orb_true_iff in Hm as [?%bool_decide_eq_true|?%bool_decide_eq_true];
      auto.
  - intros (d & Hd & Hm). exists d. split; [done|].
    rewrite (Hlow d Hd), orb_true_iff, !bool_decide_eq_true. done.
Qed.

(** The same for a character whose lower case is one ASCII character. *)
Lemma in_class_fold_lower cs c d :
  Forall (λ d, is_az d = true) cs →
  py_lower [c] = [d] → d < 128 →
  in_class true cs c = true ↔ d ∈ cs.
Proof.
  intros Hcs Hlow Hd. rewrite (in_class_fold _ _ Hcs).
  rewrite (sre_lower_of_lower c d Hlow Hd).
  rewrite Forall_forall in Hcs. split.
  - intros (d' & Hd' & [->|Hfix]); [done|].
    apply sre_fixes_ascii in Hfix; [lia|].
    specialize (Hcs d' Hd'). apply is_az_spec in Hcs. lia.
  - intros Hin. exists d. auto.
Qed.

Lemma in_class_newline ic cs :
  Forall (λ d, is_az d = true) cs → in_class ic cs NEWLINE = false.
Proof.
  intros Hcs. apply not_true_is_false. destruct ic.
  - rewrite (in_class_fold_lower cs NEWLINE NEWLINE Hcs); [| |done].
    + intros Hin. rewrite Forall_forall in Hcs.
      by specialize (Hcs _ Hin).
    + by rewrite lower_one_ascii.
  - rewrite in_class_exact. intros Hin. rewrite Forall_forall in Hcs.
    by specialize (Hcs _ Hin).
Qed.
End class_facts.

(** ** Normalising and splitting the square *)

Section square_facts.
Context {U : Unicode} {HU : UnicodeLaws U}.

Lemma normalize_letters_eq s :
  Filter.normalize_letters s = ascii_lower <$> List.filter is_letter s.
Proof.
  unfold Filter.normalize_letters.
  induction s as [|c s IH]; [done|].
  rewrite bind_cons, IH, ALPHA_RE_one. simpl.
  destruct (is_letter c) eqn:Hc; [|done].
  by rewrite lower_one_ascii by by apply is_letter_ascii.
Qed.

Lemma normalize_letters_az s :
  Forall (λ c, is_az c = true) (Filter.normalize_letters s).
Proof.
  rewrite normalize_letters_eq. apply Forall_fmap, Forall_forall.
  intros c [_ Hc]%list_elem_of_In%filter_In. simpl.
  by apply ascii_lower_is_az.
Qed.

Lemma filter_letter_az s :
  Forall (λ c, is_az c = true) s →
  ascii_lower <$> List.filter is_letter s = s.
Proof.
  induction 1 as [|c s Hc _ IH]; [done|]. simpl. unfold is_letter at 1.
  rewrite Hc, orb_true_r. csimpl. by rewrite ascii_lower_az, IH.
Qed.

Lemma normalize_letters_idem s :
  Filter.normalize_letters (Filter.normalize_letters s)
  = Filter.normalize_letters s.
Proof.
  rewrite (normalize_letters_eq (Filter.normalize_letters s)).
  apply filter_letter_az, normalize_letters_az.
Qed.
End square_facts.

Lemma split_sides_err twelve :
  length twelve ≠ 12%nat →
  Filter.split_sides twelve
  = inl (ValueError ("Expected 12 letters after normalization; got "
                     +:+ pretty (length twelve) +:+ ".")).
Proof. intros H. unfold Filter.split_sides. by rewrite decide_True. Qed.

(** The four slices put together are the twelve letters again. *)
Lemma concat_slices twelve :
  length twelve = 12%nat →
  concat [slice 0 3 twelve; slice 3 6 twelve; slice 6 9 twelve;
          slice 9 12 twelve] = twelve.
Proof.
  intros H. do 13 (destruct twelve as [|? twelve]; try done).
Qed.

(** ** Stripping, and the loops over the word list *)

Section loop_facts.
Context {U : Unicode}.

Lemma lstrip_head_kept s : head_kept (lstrip s).
Proof.
  induction s as [|c s IH]; simpl; [done|].
  by destruct (py_isspace c) eqn:E.
Qed.

Lemma lstrip_id s : head_kept s → lstrip s = s.
Proof. destruct s as [|c s]; simpl; [done|]. by intros ->. Qed.

Lemma lstrip_suffix s : ∃ pre, s = pre ++ lstrip s.
Proof.
  induction s as [|c s [pre IH]]; simpl; [by exists []|].
  destruct (py_isspace c).
  - exists (c :: pre). by rewrite IH at 1.
  - by exists [].
Qed.

Lemma rstrip_head_kept s : head_kept s → head_kept (rstrip s).
Proof.
  intros Hs. unfold rstrip.
  destruct (lstrip_suffix (reverse s)) as [pre Hpre].
  apply (f_equal reverse) in Hpre.
  rewrite reverse_involutive, reverse_app in Hpre.
  destruct (reverse (lstrip (reverse s))) as [|c t]; [done|].
  by rewrite Hpre in Hs.
Qed.

Lemma strip_fixed s : head_kept s → head_kept (reverse s) → strip s = s.
Proof.
  intros H1 H2. unfold strip, rstrip.
  by rewrite (lstrip_id s H1), (lstrip_id _ H2), reverse_involutive.
Qed.

Lemma strip_idem s : strip (strip s) = strip s.
Proof.
  apply strip_fixed.
  - apply rstrip_head_kept, lstrip_head_kept.
  - unfold strip, rstrip. rewrite reverse_involutive.
    apply lstrip_head_kept.
Qed.

Lemma strip_no_space s :
  Forall (λ c, py_isspace c = false) s → strip s = s.
Proof.
  intros Hs. apply strip_fixed.
  - by destruct Hs.
  - apply Forall_reverse in Hs. by destruct Hs.
Qed.

Lemma load_words_eq f :
  Filter.load_words f
  = List.filter (λ w, negb (bool_decide (w = []))) (strip <$> f).
Proof.
  induction f as [|line f IH]; simpl; [done|].
  rewrite IH. by destruct (bool_decide (strip line = [])).
Qed.

Lemma main_loop_eq rx al ml words valid :
  Filter.main_loop rx al ml words valid
  = valid ++ List.filter (loop_accepts rx al ml) (strip <$> words).
Proof.
  revert valid. induction words as [|raw words IH]; intros valid.
  { simpl. by rewrite app_nil_r. }
  rewrite fmap_cons. cbn [Filter.main_loop List.filter]. rewrite !IH.
  unfold loop_accepts.
  destruct (bool_decide (strip raw = [])); [done|].
  destruct (Z.of_nat (length (strip raw)) <? ml)%Z; [done|].
  destruct (forallb _ (List.filter py_isalpha (strip raw))); [|done].
  destruct (str_isalpha (strip raw)); [|done].
  destruct (fullmatch rx (strip raw)); [|done].
  simpl. by rewrite <-app_assoc.
Qed.

Lemma accepts_nonempty rx al ml w :
  loop_accepts rx al ml w = true → w ≠ [].
Proof.
  unfold loop_accepts. rewrite !andb_true_iff, negb_true_iff.
  intros [[[[H _] _] _] _]. by apply bool_decide_eq_false in H.
Qed.

(** The words [main] keeps of a word list, for a pattern and a set. *)
Lemma kept_eq rx al ml f :
  Filter.main_loop rx al ml (Filter.load_words f) []
  = List.filter (loop_accepts rx al ml) (strip <$> f).
Proof.
  rewrite main_loop_eq, load_words_eq, app_nil_l.
  induction f as [|line f IH]; [done|].
  rewrite !fmap_cons. cbn [List.filter].
  destruct (bool_decide (strip line = [])) eqn:E; cbn [negb].
  - rewrite IH. destruct (loop_accepts rx al ml (strip line)) eqn:Ha;
      [|done].
    apply accepts_nonempty in Ha. by apply bool_decide_eq_true in E.
  - rewrite fmap_cons. cbn [List.filter]. by rewrite strip_idem, IH.
Qed.
End loop_facts.

(** ** A square of lower-case letters: the classes of its pattern *)

Section sides_facts.
Context {U : Unicode} {HU : UnicodeLaws U}.
Variable sides : list str.
Hypothesis Hsides : letter_sides sides.

Lemma side_az side c : side ∈ sides → c ∈ side → is_az c = true.
Proof.
  intros Hside Hc. unfold letter_sides in Hsides.
  rewrite Forall_forall in Hsides. specialize (Hsides _ Hside).
  rewrite Forall_forall in Hsides. auto.
Qed.

Lemma side_ascii side c : side ∈ sides → c ∈ side → c < 128.
Proof. intros Hs Hc. pose proof (side_az _ _ Hs Hc) as H%is_az_spec. lia. Qed.

Lemma norm_sides_eq : norm_sides_of sides = sorted_set <$> sides.
Proof.
  unfold norm_sides_of. apply list_fmap_ext. intros i side Hi.
  rewrite lower_az; [done|]. apply list_elem_of_lookup_2 in Hi.
  apply Forall_forall. intros c. by apply side_az.
Qed.

Lemma elem_of_norm_sides edge :
  edge ∈ norm_sides_of sides ↔ ∃ side, side ∈ sides ∧ edge = sorted_set side.
Proof.
  rewrite norm_sides_eq, list_elem_of_fmap. split.
  - intros (side & -> & Hs). by exists side.
  - intros (side & Hs & ->). by exists side.
Qed.

Lemma elem_of_allowed d :
  d ∈ allowed_of sides ↔ ∃ side, side ∈ sides ∧ d ∈ side.
Proof.
  unfold allowed_of. rewrite elem_of_sorted_set, elem_of_concat. split.
  - intros (edge & (side & Hs & ->)%elem_of_norm_sides & Hd).
    exists side. by rewrite elem_of_sorted_set in Hd.
  - intros (side & Hs & Hd). exists (sorted_set side).
    rewrite elem_of_norm_sides, elem_of_sorted_set. eauto.
Qed.

Lemma allowed_az : Forall (λ c, is_az c = true) (allowed_of sides).
Proof.
  apply Forall_forall. intros d (side & Hs & Hd)%elem_of_allowed.
  by apply (side_az side).
Qed.

Lemma edge_az side :
  side ∈ sides → Forall (λ c, is_az c = true) (sorted_set side).
Proof.
  intros Hs. apply Forall_forall. intros d Hd.
  rewrite elem_of_sorted_set in Hd. by apply (side_az side).
Qed.

Lemma elem_of_allowed_set d :
  d ∈ (list_to_set (concat sides) : gset N) ↔
  ∃ side, side ∈ sides ∧ d ∈ side.
Proof. by rewrite elem_of_list_to_set, elem_of_concat. Qed.

Lemma fullmatch_square ic w :
  fullmatch (Filter.build_letterboxed_regex sides ic) w =
    bool_decide (3 ≤ length w)%nat
    && forallb (in_class ic (allowed_of sides)) w
    && negb (has_adjacent (doubled ic) w)
    && forallb (λ edge, negb (has_adjacent (both_in ic edge) w))
         (norm_sides_of sides).
Proof. apply fullmatch_build, in_class_newline, allowed_az. Qed.
End sides_facts.

(** ** The loop's tests against the four invariants *)

Lemma char_range_az : Forall (λ c, is_az c = true) (char_range 97 122).
Proof.
  apply Forall_forall. intros c Hc.
  apply elem_of_char_range in Hc; [|lia]. by apply is_az_spec.
Qed.

Lemma adjacent_elem_of {U : Unicode} w c c' :
  adjacent w c c' → c ∈ w ∧ c' ∈ w.
Proof.
  intros (pre & post & ->). rewrite !elem_of_app, !elem_of_cons. auto.
Qed.

Section accept_facts.
Context {U : Unicode} {HU : UnicodeLaws U}.
Variable sides : list str.
Hypothesis Hsides : letter_sides sides.

Lemma on_side_alpha ic side c : on_side ic side c → py_isalpha c = true.
Proof. by intros (d & _ & Ha & _). Qed.

Lemma on_side_lower ic side c :
  side ∈ sides → on_side ic side c →
  ∃ d, py_lower [c] = [d] ∧ d ∈ side ∧ (ic = false → c = d).
Proof.
  intros Hs (d & Hd & _ & Hcd). exists d. destruct ic.
  - done.
  - subst d. split; [|done].
    rewrite lower_one_ascii by by apply (side_ascii sides Hsides side).
    by rewrite ascii_lower_az by by apply (side_az sides Hsides side).
Qed.

Lemma on_side_in_class ic cs side c :
  Forall (λ d, is_az d = true) cs → (∀ d, d ∈ side → d ∈ cs) →
  side ∈ sides → on_side ic side c → in_class ic cs c = true.
Proof.
  intros Hcs Hsub Hs Hon.
  destruct (on_side_lower _ _ _ Hs Hon) as (d & Hlow & Hd & Hcd).
  destruct ic.
  - apply (in_class_fold_lower cs c d Hcs Hlow); [|by apply Hsub].
    by apply (side_ascii sides Hsides side).
  - apply in_class_exact. rewrite (Hcd eq_refl). by apply Hsub.
Qed.

Lemma in_class_on_side ic side c d :
  side ∈ sides → py_isalpha c = true → py_lower [c] = [d] → d < 128 →
  in_class ic (sorted_set side) c = true → on_side ic side c.
Proof.
  intros Hs Ha Hlow Hd Hin. destruct ic.
  - apply (in_class_fold_lower _ c d (edge_az sides Hsides side Hs) Hlow Hd)
      in Hin.
    rewrite elem_of_sorted_set in Hin. by exists d.
  - apply in_class_exact in Hin. rewrite elem_of_sorted_set in Hin.
    by exists c.
Qed.

(** What the two tests before the pattern establish of a character. *)
Lemma prechecked c :
  py_isalpha c = true → lower_in c (list_to_set (concat sides)) = true →
  ∃ d side, py_lower [c] = [d] ∧ side ∈ sides ∧ d ∈ side.
Proof.
  intros _ Hin. unfold lower_in in Hin.
  destruct (py_lower [c]) as [|d [|??]]; try done.
  apply bool_decide_eq_true in Hin.
  apply (elem_of_allowed_set sides) in Hin as (side & Hs & Hd).
  by exists d, side.
Qed.

Lemma on_side_lower_in ic side c :
  side ∈ sides → on_side ic side c →
  lower_in c (list_to_set (concat sides)) = true.
Proof.
  intros Hs Hon.
  destruct (on_side_lower _ _ _ Hs Hon) as (d & Hlow & Hd & _).
  unfold lower_in. rewrite Hlow. apply bool_decide_eq_true.
  apply elem_of_allowed_set. eauto.
Qed.

Lemma doubled_same ic side c c' :
  side ∈ sides → on_side ic side c → on_side ic side c' →
  c = c' → doubled ic c c' = true.
Proof.
  intros Hs Hon _ <-. unfold doubled. apply andb_true_iff. split.
  - apply (on_side_in_class ic _ side c char_range_az); [|done..].
    intros d Hd. apply elem_of_char_range; [lia|].
    by apply is_az_spec, (side_az sides Hsides side).
  - unfold ref_match. destruct ic; by apply bool_decide_eq_true.
Qed.

Lemma doubled_on_side ic side side' c c' :
  side ∈ sides → side' ∈ sides →
  on_side ic side c → on_side ic side' c' →
  doubled ic c c' = true → on_side ic side c'.
Proof.
  intros Hs Hs' Hon Hon' [_ Href]%andb_true_iff.
  destruct (on_side_lower _ _ _ Hs Hon) as (d & Hlow & Hd & Hcd).
  destruct (on_side_lower _ _ _ Hs' Hon') as (d' & Hlow' & Hd' & Hcd').
  unfold ref_match in Href. destruct ic.
  - apply bool_decide_eq_true in Href.
    rewrite (sre_lower_of_lower c d), (sre_lower_of_lower c' d') in Href;
      [|done|by apply (side_ascii sides Hsides side')
       |done|by apply (side_ascii sides Hsides side)].
    subst d'. exists d. split; [done|]. split; [|done].
    by apply (on_side_alpha true side').
  - apply bool_decide_eq_true in Href. by subst c'.
Qed.

Lemma valid_word_alpha ic ml w c :
  valid_word ic sides ml w → c ∈ w → py_isalpha c = true.
Proof.
  intros Hv Hc. destruct (inv_letters _ _ _ _ Hv c Hc) as (side & _ & Hon).
  by apply (on_side_alpha ic side).
Qed.

Lemma valid_word_strip ic ml w : valid_word ic sides ml w → strip w = w.
Proof.
  intros Hv. apply strip_no_space, Forall_forall. intros c Hc.
  pose proof (valid_word_alpha _ _ _ _ Hv Hc) as Ha.
  destruct (py_isspace c) eqn:E; [|done].
  apply isspace_not_alpha in E. congruence.
Qed.

Lemma has_adjacent_intro R w c c' :
  adjacent w c c' → R c c' = true → has_adjacent R w = true.
Proof.
  intros (pre & post & ->) HR. apply has_adjacent_spec.
  by exists pre, c, c', post.
Qed.

Lemma accepts_valid ic ml w :
  loop_accepts (Filter.build_letterboxed_regex sides ic)
    (list_to_set (concat sides)) ml w = true →
  (3 ≤ length w)%nat ∧ valid_word ic sides ml w.
Proof.
  unfold loop_accepts. rewrite (fullmatch_square sides Hsides).
  rewrite !andb_true_iff, !negb_true_iff, bool_decide_eq_true.
  intros [[[[Hne Hlen] Hpre] Halpha] [[[H3 Hcls] Hdbl] Hedges]].
  unfold str_isalpha in Halpha.
  apply andb_true_iff in Halpha as [_ Halpha].
  rewrite forallb_elem_of in Halpha. rewrite forallb_elem_of in Hpre.
  rewrite forallb_elem_of in Hcls. rewrite forallb_elem_of in Hedges.
  assert (∀ c, c ∈ w → ∃ side, side ∈ sides ∧ on_side ic side c) as Hon.
  { intros c Hc.
    destruct (prechecked c) as (d & side & Hlow & Hs & Hd);
      [by apply Halpha| |].
    { apply Hpre, list_elem_of_In, filter_In.
      split; [by apply list_elem_of_In|by apply Halpha]. }
    destruct ic.
    - exists side. split; [done|]. exists d. split; [done|].
      split; [by apply Halpha|done].
    - specialize (Hcls c Hc). apply in_class_exact in Hcls.
      apply (elem_of_allowed sides Hsides) in Hcls as (side' & Hs' & Hc').
      exists side'. split; [done|]. exists c. split; [done|].
      split; [by apply Halpha|done]. }
  split; [done|]. split.
  - apply Z.ltb_ge in Hlen. lia.
  - done.
  - intros c c' Hadj ->.
    destruct (adjacent_elem_of _ _ _ Hadj) as [Hc _].
    destruct (Hon c' Hc) as (side & Hs & Hside).
    rewrite (has_adjacent_intro (doubled ic) w c' c') in Hdbl;
      [done|done|by apply (doubled_same ic side)].
  - intros c c' side Hadj Hs [Hc Hc'].
    assert (sorted_set side ∈ norm_sides_of sides) as Hedge.
    { apply (elem_of_norm_sides sides Hsides). by exists side. }
    specialize (Hedges _ Hedge). apply negb_true_iff in Hedges.
    rewrite (has_adjacent_intro _ w c c') in Hedges; [done|done|].
    unfold both_in. apply andb_true_iff.
    split; apply (on_side_in_class ic _ side);
      try done; try (by apply (edge_az sides Hsides));
      intros d Hd; by apply elem_of_sorted_set.
Qed.

Lemma valid_accepts ic ml w :
  (3 ≤ length w)%nat → valid_word ic sides ml w →
  loop_accepts (Filter.build_letterboxed_regex sides ic)
    (list_to_set (concat sides)) ml w = true.
Proof.
  intros H3 Hv. unfold loop_accepts.
  rewrite (fullmatch_square sides Hsides).
  pose proof (inv_letters _ _ _ _ Hv) as Hon.
  rewrite !andb_true_iff, !negb_true_iff, bool_decide_eq_true.
  repeat split.
  - apply bool_decide_eq_false. intros ->. simpl in H3. lia.
  - apply Z.ltb_ge. apply (inv_length _ _ _ _ Hv).
  - apply forallb_elem_of. intros c [Hc _]%list_elem_of_In%filter_In.
    apply list_elem_of_In in Hc. destruct (Hon c Hc) as (side & Hs & Hside).
    by apply (on_side_lower_in ic side).
  - unfold str_isalpha. apply andb_true_iff. split.
    + apply negb_true_iff, bool_decide_eq_false. intros ->.
      simpl in H3. lia.
    + apply forallb_elem_of. intros c Hc.
      by apply (valid_word_alpha ic ml w).
  - done.
  - apply forallb_elem_of. intros c Hc.
    destruct (Hon c Hc) as (side & Hs & Hside).
    apply (on_side_in_class ic _ side);
      [by apply (allowed_az sides)| |done..].
    intros d Hd. apply (elem_of_allowed sides Hsides). eauto.
  - apply not_true_is_false.
    intros (pre & c & c' & post & Hw & Hd)%has_adjacent_spec.
    assert (adjacent w c c') as Hadj by by exists pre, post.
    destruct (adjacent_elem_of _ _ _ Hadj) as [Hc Hc'].
    destruct (Hon c Hc) as (side & Hs & Hside).
    destruct (Hon c' Hc') as (side' & Hs' & Hside').
    apply (inv_no_same_side _ _ _ _ Hv c c' side Hadj Hs).
    split; [done|].
    by apply (doubled_on_side ic side side' c c').
  - apply forallb_elem_of.
    intros edge (side & Hs & ->)%(elem_of_norm_sides sides Hsides).
    apply negb_true_iff, not_true_is_false.
    intros (pre & c & c' & post & Hw & [Hin Hin']%andb_true_iff)
      %has_adjacent_spec.
    assert (adjacent w c c') as Hadj by by exists pre, post.
    destruct (adjacent_elem_of _ _ _ Hadj) as [Hc Hc'].
    apply (inv_no_same_side _ _ _ _ Hv c c' side Hadj Hs).
    destruct (Hon c Hc) as (s1 & Hs1 & Hon1).
    destruct (Hon c' Hc') as (s2 & Hs2 & Hon2).
    destruct (on_side_lower _ _ _ Hs1 Hon1)
      as (d1 & Hlow1 & Hd1 & _).
    destruct (on_side_lower _ _ _ Hs2 Hon2)
      as (d2 & Hlow2 & Hd2 & _).
    split.
    + apply (in_class_on_side ic side c d1); try done.
      * by apply (on_side_alpha ic s1).
      * by apply (side_ascii sides Hsides s1).
    + apply (in_class_on_side ic side c' d2); try done.
      * by apply (on_side_alpha ic s2).
      * by apply (side_ascii sides Hsides s2).
Qed.

Lemma accepts_iff ic ml w :
  loop_accepts (Filter.build_letterboxed_regex sides ic)
    (list_to_set (concat sides)) ml w = true ↔
  (3 ≤ length w)%nat ∧ valid_word ic sides ml w.
Proof.
  split; [apply accepts_valid|]. intros [H3 Hv]. by apply valid_accepts.
Qed.
End accept_facts.

(** ** The fragment of CPython's tables satisfies the laws *)

Lemma frag_lower_ascii s :
  Forall (λ c, c < 128) s → s ≫= frag_lower1 = ascii_lower <$> s.
Proof.
  induction 1 as [|c s Hc _ IH]; [done|].
  rewrite bind_cons, fmap_cons, IH. unfold frag_lower1.
  rewrite !decide_False by lia. done.
Qed.

#[export] Instance cpython_fragment_laws : UnicodeLaws cpython_fragment.
Proof.
  split; simpl.
  - intros c Hc. unfold frag_isalpha.
    rewrite (bool_decide_eq_false_2 (c ∈ _)); [by rewrite orb_false_r|].
    rewrite !elem_of_cons, elem_of_nil. lia.
  - apply frag_lower_ascii.
  - intros c Hc. unfold frag_sre_lower. by rewrite !decide_False by lia.
  - intros c d Hc. unfold frag_sre_fixes.
    repeat case_decide; rewrite ?elem_of_cons, elem_of_nil; lia.
  - intros c d. unfold frag_lower1, frag_sre_lower.
    repeat case_decide; simpl; intros [=]; done.
  - intros c. unfold frag_isspace, frag_isalpha.
    rewrite orb_true_iff, !andb_true_iff, !N.leb_le. intros Hc.
    rewrite !orb_false_iff. repeat split.
    + apply not_true_is_false. rewrite is_AZ_spec. lia.
    + apply not_true_is_false. rewrite is_az_spec. lia.
    + apply bool_decide_eq_false.
      rewrite !elem_of_cons, elem_of_nil. lia.
Qed.

(** ** [main] of filter.py on a well-formed square *)

Section main_facts.
Context {U : Unicode} {HU : UnicodeLaws U}.

Lemma split_sides_inr twelve sides :
  Filter.split_sides twelve = inr sides →
  length twelve = 12%nat ∧ concat sides = twelve.
Proof.
  unfold Filter.split_sides. case_decide as Hlen; [done|].
  intros [= <-]. assert (length twelve = 12%nat) as H12 by lia.
  split; [done|]. by apply concat_slices.
Qed.

Lemma split_sides_letters twelve sides :
  Forall (λ c, is_az c = true) twelve →
  Filter.split_sides twelve = inr sides → letter_sides sides.
Proof.
  intros Haz. unfold Filter.split_sides. case_decide; [done|].
  intros [= <-]. unfold letter_sides, slice.
  repeat constructor; by apply Forall_take, Forall_drop.
Qed.

Lemma square_letters raw sides :
  Filter.split_sides (Filter.normalize_letters raw) = inr sides →
  letter_sides sides.
Proof. apply split_sides_letters, normalize_letters_az. Qed.

(** The list [main] has built when it reaches the sort. *)
Lemma main_valid a f sides :
  Filter.split_sides (Filter.normalize_letters (Filter.letters a))
  = inr sides →
  Filter.valid (Filter.main a f)
  = Some (List.filter
            (loop_accepts
               (Filter.build_letterboxed_regex sides
                  (negb (Filter.case_sensitive a)))
               (list_to_set (concat sides)) (Filter.min_length a))
            (strip <$> f)).
Proof.
  intros Hsplit. unfold Filter.main. rewrite Hsplit. simpl.
  by rewrite kept_eq.
Qed.

(** [main] keeps a word given alone exactly when the word is as it stands
    what the loop's tests accept. *)
Lemma main_keeps a w sides :
  Filter.split_sides (Filter.normalize_letters (Filter.letters a))
  = inr sides →
  Filter.valid (Filter.main a [w]) = Some [w] ↔
  (3 ≤ length w)%nat
  ∧ valid_word (negb (Filter.case_sensitive a)) sides
      (Filter.min_length a) w.
Proof.
  intros Hsplit. pose proof (square_letters _ _ Hsplit) as Hsides.
  rewrite (main_valid a [w] sides Hsplit).
  rewrite <-(accepts_iff sides Hsides). simpl. split.
  - destruct (loop_accepts _ _ _ (strip w)) eqn:Ha; [|done].
    intros [= Hw]. by rewrite Hw in Ha.
  - intros Ha.
    pose proof Ha as [_ Hv]%(accepts_iff sides Hsides).
    apply (valid_word_strip sides) in Hv. by rewrite Hv, Ha.
Qed.
End main_facts.

(** * The claims *)

(** ** C1: the matcher against the four invariants *)

Lemma abc_split :
  Filter.split_sides
    (Filter.normalize_letters (U:=cpython_fragment) (lit "abcdefghijkl"))
  = inr abc_sides.
Proof. vm_compute. reflexivity. Defined.

Lemma abc_nodup :
  NoDup (Filter.normalize_letters (U:=cpython_fragment) (lit "abcdefghijkl")).
Proof. apply (bool_decide_unpack _). vm_compute. exact I. Defined.

Lemma abc_letter_sides : letter_sides abc_sides.
Proof. apply (square_letters (U:=cpython_fragment) _ _ abc_split). Qed.

(** The word "ad" meets the four invariants for minimum length 2. *)
Lemma ad_valid_word : valid_word (U:=cpython_fragment) true abc_sides 2 (lit "ad").
Proof.
  pose proof abc_letter_sides as Hsides. revert Hsides. eval_lits.
  intros Hsides. split.
  - simpl. lia.
  - intros c Hc. rewrite !elem_of_cons, elem_of_nil in Hc.
    destruct Hc as [->|[->|[]]].
    + exists [97; 98; 99]. split; [set_solver|]. exists 97.
      split; [set_solver|]. by split.
    + exists [100; 101; 102]. split; [set_solver|]. exists 100.
      split; [set_solver|]. by split.
  - intros c c' (pre & post & Hw).
    destruct pre as [|? [|? [|? ?]]]; simplify_eq/=. done.
  - intros c c' side (pre & post & Hw) Hs [Hc Hc'].
    destruct pre as [|? [|? [|? ?]]]; simplify_eq/=.
    destruct (on_side_lower _ Hsides _ _ _ Hs Hc) as (d & Hlow & Hd & _).
    destruct (on_side_lower _ Hsides _ _ _ Hs Hc') as (d' & Hlow' & Hd' & _).
    vm_compute in Hlow, Hlow'. simplify_eq.
    rewrite !elem_of_cons, elem_of_nil in Hs.
    destruct Hs as [->|[->|[->|[->|[]]]]].
    all: rewrite !elem_of_cons, elem_of_nil in Hd, Hd'.
    all: lia.
Qed.

(** C1 as stated fails: with minimum length 2 the word "ad" meets all four
    invariants on the square abc-def-ghi-jkl, and is not kept. *)
Lemma matcher_min_length_counterexample :
  Filter.split_sides
    (Filter.normalize_letters (U:=cpython_fragment)
       (Filter.letters (abc_args 2 false))) = inr abc_sides
  ∧ NoDup (Filter.normalize_letters (U:=cpython_fragment)
             (Filter.letters (abc_args 2 false)))
  ∧ valid_word (U:=cpython_fragment)
      (negb (Filter.case_sensitive (abc_args 2 false))) abc_sides
      (Filter.min_length (abc_args 2 false)) (lit "ad")
  ∧ Filter.valid (Filter.main (U:=cpython_fragment) (abc_args 2 false)
                    [lit "ad"]) = Some []
  ∧ ¬ (Filter.valid (Filter.main (U:=cpython_fragment) (abc_args 2 false)
                       [lit "ad"]) = Some [lit "ad"]
       ↔ valid_word (U:=cpython_fragment)
           (negb (Filter.case_sensitive (abc_args 2 false))) abc_sides
           (Filter.min_length (abc_args 2 false)) (lit "ad")).
Proof.
  assert (Filter.valid (Filter.main (U:=cpython_fragment) (abc_args 2 false)
                          [lit "ad"]) = Some []) as Hrun
    by (vm_compute; reflexivity).
  split; [exact abc_split|]. split; [exact abc_nodup|].
  split; [exact ad_valid_word|]. split; [exact Hrun|].
  intros [_ Hkeep]. specialize (Hkeep ad_valid_word).
  rewrite Hrun in Hkeep. discriminate.
Qed.

(** C1 (amended): for every square of 12 pairwise distinct letters and every
    minimum length, [main] keeps a word exactly when the word has at least
    three characters and the four invariants hold: length at least the
    minimum, every character a letter of the square, no two consecutive
    characters equal, no two consecutive characters on one side.  The pattern
    asks for three characters whatever the minimum length is. *)
Theorem matcher_iff_invariants {U : Unicode} {HU : UnicodeLaws U}
    (a : Filter.args)
    (sides : list str) (w : str) :
  Filter.split_sides (Filter.normalize_letters (Filter.letters a))
  = inr sides →
  NoDup (Filter.normalize_letters (Filter.letters a)) →
  Filter.valid (Filter.main a [w]) = Some [w] ↔
  (3 ≤ length w)%nat
  ∧ valid_word (negb (Filter.case_sensitive a)) sides (Filter.min_length a) w.
Proof. intros Hsplit _. by apply main_keeps. Qed.

Lemma matcher_iff_invariants_witness :
  (Filter.split_sides
     (Filter.normalize_letters (U:=cpython_fragment)
        (Filter.letters (abc_args 3 false))) = inr abc_sides
   ∧ NoDup (Filter.normalize_letters (U:=cpython_fragment)
              (Filter.letters (abc_args 3 false))))
  ∧ (Filter.valid (Filter.main (U:=cpython_fragment) (abc_args 3 false)
                     [lit "fad"]) = Some [lit "fad"]
     ↔ (3 ≤ length (lit "fad"))%nat
       ∧ valid_word (U:=cpython_fragment)
           (negb (Filter.case_sensitive (abc_args 3 false))) abc_sides
           (Filter.min_length (abc_args 3 false)) (lit "fad")).
Proof.
  split; [split; [exact abc_split|exact abc_nodup]|].
  exact (matcher_iff_invariants (abc_args 3 false) abc_sides (lit "fad")
           abc_split abc_nodup).
Defined.

(** ** C4: a letter on more than one side *)

Lemma size_list_to_set_le (l : str) :
  (size (list_to_set l : gset N) ≤ length l)%nat.
Proof.
  induction l as [|x l IH].
  - rewrite list_to_set_nil, size_empty. simpl. lia.
  - rewrite list_to_set_cons. simpl length.
    destruct (decide (x ∈ l)) as [Hx|Hx].
    + rewrite (subseteq_union_1_L {[x]} (list_to_set l)); [lia|].
      by apply singleton_subseteq_l, elem_of_list_to_set.
    + rewrite size_union, size_singleton; [lia|].
      by apply disjoint_singleton_l; rewrite elem_of_list_to_set.
Qed.

Lemma size_list_to_set_NoDup (l : str) :
  size (list_to_set l : gset N) = length l → NoDup l.
Proof.
  induction l as [|x l IH]; [constructor|].
  rewrite list_to_set_cons. simpl length.
  destruct (decide (x ∈ l)) as [Hx|Hx].
  - rewrite (subseteq_union_1_L {[x]} (list_to_set l)).
    + pose proof (size_list_to_set_le l). lia.
    + by apply singleton_subseteq_l, elem_of_list_to_set.
  - rewrite size_union, size_singleton.
    + intros Hsize. constructor; [done|]. apply IH. lia.
    + by apply disjoint_singleton_l; rewrite elem_of_list_to_set.
Qed.

Lemma concat_NoDup_disjoint (ls : list str) i j si sj d :
  NoDup (concat ls) → (i < j)%nat →
  ls !! i = Some si → ls !! j = Some sj → d ∈ si → d ∈ sj → False.
Proof.
  revert i j. induction ls as [|l ls IH]; intros i j Hnd Hij Hi Hj Hdi Hdj.
  { done. }
  simpl in Hnd. apply NoDup_app in Hnd as (_ & Hdisj & Hnd).
  destruct i as [|i], j as [|j]; simplify_eq/=; try lia.
  - apply (Hdisj d Hdi). apply elem_of_concat. exists sj.
    split; [|done]. by apply list_elem_of_lookup_2 in Hj.
  - apply (IH i j); auto with lia.
Qed.

(** A letter on two sides means the twelve letters are not all distinct. *)
Lemma shared_letter_size (sides : list str) i j si sj d :
  i ≠ j → sides !! i = Some si → sides !! j = Some sj → d ∈ si → d ∈ sj →
  size (list_to_set (concat sides) : gset N) ≠ length (concat sides).
Proof.
  intros Hij Hi Hj Hdi Hdj Hsize%size_list_to_set_NoDup.
  destruct (decide (i < j)%nat).
  - by apply (concat_NoDup_disjoint sides i j si sj d).
  - apply (concat_NoDup_disjoint sides j i sj si d); auto with lia.
Qed.

(** C4: when some letter of the square lies on more than one side, [main]
    still goes on, with exit code 0 so far and only the note about duplicates
    on stderr; and a word with two consecutive characters that share a side
    is not matched by the pattern and is not among the kept words. *)
Theorem shared_letter_square {U : Unicode} {HU : UnicodeLaws U}
    (a : Filter.args) (f : list str) (sides : list str) :
  Filter.split_sides (Filter.normalize_letters (Filter.letters a))
  = inr sides →
  (∃ i j si sj d, i ≠ j ∧ sides !! i = Some si ∧ sides !! j = Some sj
                  ∧ d ∈ si ∧ d ∈ sj) →
  Filter.exit_code (Filter.main a f) = 0%Z
  ∧ Filter.stderr (Filter.main a f)
    = ["Note: the 12-letter set contains duplicates. Proceeding anyway."]
  ∧ ∃ V, Filter.valid (Filter.main a f) = Some V
    ∧ ∀ w c c' side,
        side ∈ sides → adjacent w c c' →
        on_side (negb (Filter.case_sensitive a)) side c →
        on_side (negb (Filter.case_sensitive a)) side c' →
        fullmatch (Filter.build_letterboxed_regex sides
                     (negb (Filter.case_sensitive a))) w = false
        ∧ w ∉ V.
Proof.
  intros Hsplit (i & j & si & sj & d & Hij & Hi & Hj & Hdi & Hdj).
  pose proof (square_letters _ _ Hsplit) as Hsides.
  pose proof (split_sides_inr _ _ Hsplit) as [Hlen Hcat].
  pose proof (shared_letter_size sides i j si sj d Hij Hi Hj Hdi Hdj) as Hsz.
  rewrite Hcat, Hlen in Hsz.
  rewrite (main_valid a f sides Hsplit).
  unfold Filter.main. rewrite Hsplit. simpl.
  rewrite decide_True by done.
  split; [done|]. split; [done|]. eexists. split; [done|].
  intros w c c' side Hs Hadj Hc Hc'.
  assert (fullmatch (Filter.build_letterboxed_regex sides
                       (negb (Filter.case_sensitive a))) w = false) as Hfm.
  { rewrite (fullmatch_square sides Hsides).
    assert (sorted_set side ∈ norm_sides_of sides) as Hedge.
    { apply (elem_of_norm_sides sides Hsides). by exists side. }
    apply andb_false_iff. right. apply not_true_is_false.
    rewrite forallb_elem_of. intros Hall. specialize (Hall _ Hedge).
    apply negb_true_iff in Hall.
    rewrite (has_adjacent_intro _ w c c') in Hall; [done|done|].
    unfold both_in. apply andb_true_iff.
    split; apply (on_side_in_class sides Hsides _ _ side);
      try done; try (by apply (edge_az sides Hsides));
      intros x Hx; by apply elem_of_sorted_set. }
  split; [done|].
  intros [_ Hacc]%list_elem_of_In%filter_In.
  unfold loop_accepts in Hacc. rewrite Hfm in Hacc.
  by rewrite andb_false_r in Hacc.
Qed.

Lemma shared_letter_square_witness :
  (Filter.split_sides
     (Filter.normalize_letters (U:=cpython_fragment) (Filter.letters dup_args))
   = inr dup_sides
   ∧ ∃ i j si sj d, i ≠ j ∧ dup_sides !! i = Some si ∧ dup_sides !! j = Some sj
                    ∧ d ∈ si ∧ d ∈ sj)
  ∧ Filter.exit_code (Filter.main (U:=cpython_fragment) dup_args [lit "bad"])
    = 0%Z
  ∧ Filter.stderr (Filter.main (U:=cpython_fragment) dup_args [lit "bad"])
    = ["Note: the 12-letter set contains duplicates. Proceeding anyway."]
  ∧ ∃ V, Filter.valid (Filter.main (U:=cpython_fragment) dup_args [lit "bad"])
         = Some V
    ∧ ∀ w c c' side,
        side ∈ dup_sides → adjacent w c c' →
        on_side (U:=cpython_fragment)
          (negb (Filter.case_sensitive dup_args)) side c →
        on_side (U:=cpython_fragment)
          (negb (Filter.case_sensitive dup_args)) side c' →
        fullmatch (Filter.build_letterboxed_regex (U:=cpython_fragment)
                     dup_sides (negb (Filter.case_sensitive dup_args))) w
        = false
        ∧ w ∉ V.
Proof.
  assert (Filter.split_sides
            (Filter.normalize_letters (U:=cpython_fragment)
               (Filter.letters dup_args)) = inr dup_sides) as Hsplit
    by (vm_compute; reflexivity).
  assert (∃ i j si sj d, i ≠ j ∧ dup_sides !! i = Some si
                         ∧ dup_sides !! j = Some sj ∧ d ∈ si ∧ d ∈ sj) as Hdup.
  { exists 0%nat, 1%nat, (lit "abc"), (lit "ade"), 97.
    split; [lia|]. split; [reflexivity|]. split; [reflexivity|].
    split; apply (bool_decide_unpack _); vm_compute; exact I. }
  split; [by split|].
  exact (shared_letter_square dup_args [lit "bad"] dup_sides Hsplit Hdup).
Defined.

(** On that square "bad" is refused (a and d share the second side) and
    "dbf" is kept. *)
Example dup_square_run :
  Filter.main (U:=cpython_fragment) dup_args [lit "bad"; lit "dbf"]
  = Filter.Outcome 0
      ["Note: the 12-letter set contains duplicates. Proceeding anyway."]
      (Some [lit "dbf"]).
Proof. vm_compute. reflexivity. Qed.

(** ** C8: case-sensitive matching *)

Lemma allowed_not_upper {U : Unicode} {HU : UnicodeLaws U} sides c :
  Forall (Forall (λ c, c < 128)) sides →
  c ∈ allowed_of sides → is_AZ c = false ∧ c < 128.
Proof.
  intros Hsides. unfold allowed_of, norm_sides_of.
  rewrite elem_of_sorted_set, elem_of_concat.
  intros (edge & (side & -> & Hs)%list_elem_of_fmap & Hc).
  rewrite elem_of_sorted_set in Hc.
  rewrite Forall_forall in Hsides.
  rewrite (lower_ascii side (Hsides side Hs)) in Hc.
  apply list_elem_of_fmap in Hc as (x & -> & Hx).
  split; [apply ascii_lower_not_AZ|].
  pose proof (proj1 (Forall_forall _ _) (Hsides side Hs) x Hx) as Hlt.
  simpl in Hlt. unfold ascii_lower. destruct (is_AZ x) eqn:E; [|done].
  apply is_AZ_spec in E. lia.
Qed.

Lemma upper_not_matched {U : Unicode} {HU : UnicodeLaws U} sides w c :
  Forall (Forall (λ c, c < 128)) sides → c ∈ w →
  is_AZ c = true ∨ 128 ≤ c →
  fullmatch (Filter.build_letterboxed_regex sides false) w = false.
Proof.
  intros Hsides Hc Hup. apply not_true_is_false.
  intros Hall%fullmatch_allowed. rewrite forallb_elem_of in Hall.
  specialize (Hall c Hc). apply in_class_exact in Hall.
  apply (allowed_not_upper sides c Hsides) in Hall as [Hno Hlt].
  destruct Hup as [Hup|Hup]; [congruence|lia].
Qed.

(** C8: without IGNORECASE the classes of the pattern hold the lowered
    letters of the sides only, so a word with an upper-case letter is not
    matched, and [main] run case-sensitively does not keep it.  The
    upper-case letters are the letters A-Z and letters outside ASCII (such
    as the Kelvin sign U+212A, which lowers to "k"); the hypothesis takes in
    all of them: a letter A-Z, or any character outside ASCII. *)
Theorem case_sensitive_rejects_upper {U : Unicode} {HU : UnicodeLaws U}
    (w : str) :
  (∃ c, c ∈ w ∧ (is_AZ c = true ∨ 128 ≤ c)) →
  (∀ sides, sides ≠ [] → ascii_sides sides →
     fullmatch (Filter.build_letterboxed_regex sides false) w = false)
  ∧ (∀ a f V, Filter.case_sensitive a = true →
       Filter.valid (Filter.main a f) = Some V → w ∉ V).
Proof.
  intros (c & Hc & Hup). split.
  - intros sides _ Hsides. apply (upper_not_matched sides w c); [|done..].
    eapply Forall_impl; [exact Hsides|]. by intros side [_ Hside].
  - intros a f V Hcs Hrun Hw. unfold Filter.main in Hrun.
    destruct (Filter.split_sides _) as [[]|sides] eqn:Hsplit; [done|].
    pose proof (square_letters _ _ Hsplit) as Hsides.
    simpl in Hrun. injection Hrun as <-. rewrite kept_eq in Hw.
    apply list_elem_of_In, filter_In in Hw as [_ Hacc].
    unfold loop_accepts in Hacc. rewrite Hcs in Hacc. simpl in Hacc.
    rewrite (upper_not_matched sides w c) in Hacc;
      [by rewrite andb_false_r in Hacc| |done..].
    eapply Forall_impl; [exact Hsides|]. intros side Hside. simpl in Hside.
    eapply Forall_impl; [exact Hside|]. intros x Hx%is_az_spec. simpl. lia.
Qed.

Lemma case_sensitive_rejects_upper_witness :
  (∃ c, c ∈ [8490; 97; 100] ∧ (is_AZ c = true ∨ 128 ≤ c))
  ∧ (∀ sides, sides ≠ [] → ascii_sides sides →
       fullmatch (Filter.build_letterboxed_regex (U:=cpython_fragment)
                    sides false) [8490; 97; 100] = false)
  ∧ (∀ a f V, Filter.case_sensitive a = true →
       Filter.valid (Filter.main (U:=cpython_fragment) a f) = Some V →
       [8490; 97; 100] ∉ V).
Proof.
  assert (∃ c, c ∈ [8490; 97; 100] ∧ (is_AZ c = true ∨ 128 ≤ c)) as Hup.
  { exists 8490. split; [by left|]. right. lia. }
  split; [exact Hup|].
  exact (case_sensitive_rejects_upper (U:=cpython_fragment)
           [8490; 97; 100] Hup).
Defined.

(** "FAD" is refused case-sensitively although "fad" is a valid word of the
    square, and kept when case is ignored. *)
Example case_runs :
  Filter.valid (Filter.main (U:=cpython_fragment) (abc_args 3 true)
                  [lit "FAD"; lit "fad"]) = Some [lit "fad"]
  ∧ Filter.valid (Filter.main (U:=cpython_fragment) (abc_args 3 false)
                    [lit "FAD"; lit "fad"]) = Some [lit "FAD"; lit "fad"].
Proof. split; vm_compute; reflexivity. Qed.

(** The same with a capital outside ASCII: the Kelvin sign followed by "ad"
    is kept when case is ignored and refused case-sensitively, although its
    lowered form "kad" is a valid word of the square. *)
Example case_runs_kelvin :
  Filter.valid (Filter.main (U:=cpython_fragment) (abc_args 3 false)
                  [[8490; 97; 100]]) = Some [[8490; 97; 100]]
  ∧ Filter.valid (Filter.main (U:=cpython_fragment) (abc_args 3 true)
                    [[8490; 97; 100]]) = Some []
  ∧ py_lower (Unicode:=cpython_fragment) [8490; 97; 100] = lit "kad"
  ∧ Filter.valid (Filter.main (U:=cpython_fragment) (abc_args 3 true)
                    [lit "kad"]) = Some [lit "kad"].
Proof. repeat split; vm_compute; reflexivity. Qed.

(** ** C6: words with a non-alphabetic character *)

Section malformed.
Context {U : Unicode}.

Lemma str_isalpha_all w c :
  str_isalpha w = true → c ∈ w → py_isalpha c = true.
Proof.
  unfold str_isalpha. rewrite andb_true_iff, forallb_elem_of.
  intros [_ H]. apply H.
Qed.

Lemma not_isalpha w :
  (∃ c, c ∈ w ∧ py_isalpha c = false) → str_isalpha w = false.
Proof.
  intros (c & Hc & Hna). apply not_true_is_false. intros Ha.
  apply (str_isalpha_all w c) in Ha; [congruence|done].
Qed.

Lemma pairs_load_words_loop_app f1 f2 words :
  FilterPairs.load_words_loop (f1 ++ f2) words
  = FilterPairs.load_words_loop f2 (FilterPairs.load_words_loop f1 words).
Proof.
  revert words. induction f1 as [|line f1 IH]; intros words; simpl; [done|].
  by repeat case_match.
Qed.
End malformed.

(** C6: a line whose word (the line stripped) has a non-alphabetic character
    leaves no trace: whatever the square and the options, [main] of filter.py
    gives the same exit code, the same stderr and the same kept words with
    the line as without it, and the pair finder loads the same list of
    words. *)
Theorem malformed_word_dropped {U : Unicode} (line : str) (f1 f2 : list str) :
  (∃ c, c ∈ strip line ∧ py_isalpha c = false) →
  (∀ a, Filter.main a (f1 ++ line :: f2) = Filter.main a (f1 ++ f2))
  ∧ FilterPairs.load_words (f1 ++ line :: f2) = FilterPairs.load_words (f1 ++ f2)
  ∧ (∀ letters, FilterPairs.main letters (f1 ++ line :: f2)
                = FilterPairs.main letters (f1 ++ f2)).
Proof.
  intros Hbad%not_isalpha.
  assert (FilterPairs.load_words (f1 ++ line :: f2)
          = FilterPairs.load_words (f1 ++ f2)) as Hload.
  { unfold FilterPairs.load_words.
    rewrite !pairs_load_words_loop_app. simpl. rewrite Hbad. simpl.
    by destruct (bool_decide (strip line = [])). }
  split; [|split; [done|]].
  - intros a. unfold Filter.main.
    destruct (Filter.split_sides _) as [[]|sides]; try done.
    rewrite !kept_eq, !fmap_app, fmap_cons, !List.filter_app. simpl.
    unfold loop_accepts at 2. rewrite Hbad.
    by rewrite andb_false_r.
  - intros letters. unfold FilterPairs.main. by rewrite Hload.
Qed.

Lemma malformed_word_dropped_witness :
  (∃ c, c ∈ strip (U:=cpython_fragment) (lit "can't ")
        ∧ py_isalpha (Unicode:=cpython_fragment) c = false)
  ∧ (∀ a, Filter.main (U:=cpython_fragment) a
            ([lit "fad"] ++ lit "can't " :: [lit "gag"])
          = Filter.main (U:=cpython_fragment) a ([lit "fad"] ++ [lit "gag"]))
  ∧ FilterPairs.load_words (U:=cpython_fragment)
      ([lit "fad"] ++ lit "can't " :: [lit "gag"])
    = FilterPairs.load_words (U:=cpython_fragment) ([lit "fad"] ++ [lit "gag"])
  ∧ (∀ letters, FilterPairs.main (U:=cpython_fragment) letters
                  ([lit "fad"] ++ lit "can't " :: [lit "gag"])
                = FilterPairs.main (U:=cpython_fragment) letters
                    ([lit "fad"] ++ [lit "gag"])).
Proof.
  assert (∃ c, c ∈ strip (U:=cpython_fragment) (lit "can't ")
               ∧ py_isalpha (Unicode:=cpython_fragment) c = false) as Hbad.
  { exists 39. split; [|reflexivity].
    apply (bool_decide_unpack _). vm_compute. exact I. }
  split; [exact Hbad|].
  exact (malformed_word_dropped (U:=cpython_fragment) (lit "can't ")
           [lit "fad"] [lit "gag"] Hbad).
Defined.

(** ** C7: filtering twice *)

Lemma filter_fmap_fixed {A} (p : A → bool) (g : A → A) (V : list A) :
  Forall (λ v, g v = v ∧ p v = true) V → List.filter p (g <$> V) = V.
Proof.
  induction 1 as [|v V [Hg Hp] _ IH]; [done|].
  rewrite fmap_cons. simpl. by rewrite Hg, Hp, IH.
Qed.

(** C7: the words [main] keeps of a word list, given to [main] again as the
    word list with the same square, minimum length and case option, are all
    kept, in the same order; and so is any list made of kept words, such as
    the sorted list [main] writes out. *)
Theorem filter_idempotent {U : Unicode} (a : Filter.args) (f V : list str) :
  Filter.valid (Filter.main a f) = Some V →
  Filter.valid (Filter.main a V) = Some V
  ∧ ∀ V', (∀ w, w ∈ V' → w ∈ V) → Filter.valid (Filter.main a V') = Some V'.
Proof.
  unfold Filter.main.
  destruct (Filter.split_sides _) as [[]|sides]; try done. simpl.
  set (rx := Filter.build_letterboxed_regex _ _).
  set (al := list_to_set (concat sides) : gset N).
  set (ml := Filter.min_length a).
  rewrite kept_eq. intros [= <-].
  assert (∀ V', (∀ w, w ∈ V' →
                   w ∈ List.filter (loop_accepts rx al ml) (strip <$> f)) →
            Filter.main_loop rx al ml (Filter.load_words V') [] = V') as Hsub.
  { intros V' HV'. rewrite kept_eq.
    apply filter_fmap_fixed, Forall_forall. intros v Hv.
    apply HV' in Hv.
    apply list_elem_of_In, filter_In in Hv as [Hv Hacc].
    apply list_elem_of_In, list_elem_of_fmap in Hv as (l & -> & _).
    split; [apply strip_idem|done]. }
  split.
  - f_equal. by apply Hsub.
  - intros V' HV'. f_equal. by apply Hsub.
Qed.

Lemma filter_idempotent_witness :
  Filter.valid (Filter.main (U:=cpython_fragment) (abc_args 3 false)
                  [lit " fad"; lit "face"; lit "x-ray"; lit "GAG "])
  = Some [lit "fad"; lit "GAG"]
  ∧ Filter.valid (Filter.main (U:=cpython_fragment) (abc_args 3 false)
                    [lit "fad"; lit "GAG"])
    = Some [lit "fad"; lit "GAG"].
Proof.
  assert (Filter.valid (Filter.main (U:=cpython_fragment) (abc_args 3 false)
                          [lit " fad"; lit "face"; lit "x-ray"; lit "GAG "])
          = Some [lit "fad"; lit "GAG"]) as Hrun by (vm_compute; reflexivity).
  split; [exact Hrun|].
  exact (proj1 (filter_idempotent (U:=cpython_fragment) (abc_args 3 false)
                  _ _ Hrun)).
Defined.

(** ** C5: a square that is not twelve letters *)

(** C5: [normalize_letters] of filter.py keeps the letters A-Z and a-z of
    the raw square, lowered and in order, so that no non-alphabetic character
    is left; and when the result is not 12 characters long, [split_sides]
    raises the error that reports the count, and [main] returns 2 with that
    message on stderr and without a square or any word kept. *)
Theorem invalid_square_aborts {U : Unicode} {HU : UnicodeLaws U}
    (a : Filter.args) (f : list str) :
  Filter.normalize_letters (Filter.letters a)
  = ascii_lower <$> List.filter is_letter (Filter.letters a)
  ∧ (∀ c, c ∈ Filter.normalize_letters (Filter.letters a) →
          py_isalpha c = true ∧ is_az c = true)
  ∧ (length (Filter.normalize_letters (Filter.letters a)) ≠ 12%nat →
     Filter.split_sides (Filter.normalize_letters (Filter.letters a))
     = inl (ValueError
              ("Expected 12 letters after normalization; got "
               +:+ pretty (length (Filter.normalize_letters (Filter.letters a)))
               +:+ "."))
     ∧ Filter.main a f
       = Filter.Outcome 2
           ["Input error: Expected 12 letters after normalization; got "
            +:+ pretty (length (Filter.normalize_letters (Filter.letters a)))
            +:+ "."]
           None).
Proof.
  split; [apply normalize_letters_eq|]. split.
  - intros c Hc.
    pose proof (normalize_letters_az (Filter.letters a)) as Haz.
    rewrite Forall_forall in Haz. specialize (Haz c Hc). split; [|done].
    rewrite isalpha_ascii.
    + by rewrite Haz, orb_true_r.
    + apply is_az_spec in Haz. lia.
  - intros Hlen. split; [by apply split_sides_err|].
    unfold Filter.main. by rewrite (split_sides_err _ Hlen).
Qed.

Lemma invalid_square_aborts_witness :
  length (Filter.normalize_letters (U:=cpython_fragment)
            (lit "abc-def-ghi-jk")) ≠ 12%nat
  ∧ Filter.main (U:=cpython_fragment) (Filter.Args (lit "abc-def-ghi-jk") 3 false)
      [lit "fad"]
    = Filter.Outcome 2
        ["Input error: Expected 12 letters after normalization; got 11."] None.
Proof.
  assert (length (Filter.normalize_letters (U:=cpython_fragment)
                    (lit "abc-def-ghi-jk")) ≠ 12%nat) as Hlen
    by (vm_compute; lia).
  split; [exact Hlen|].
  exact (proj2 (proj2 (proj2 (invalid_square_aborts (U:=cpython_fragment)
                  (Filter.Args (lit "abc-def-ghi-jk") 3 false) [lit "fad"]))
           Hlen)).
Defined.

(** ** C10: the two copies of [normalize_letters] *)

(** The copy in filter.py is idempotent, yields lower-case letters only, and
    keeps the letters of its input in their order. *)
Lemma normalize_letters_sound {U : Unicode} {HU : UnicodeLaws U} (s : str) :
  Filter.normalize_letters (Filter.normalize_letters s)
  = Filter.normalize_letters s
  ∧ Forall (λ c, is_az c = true) (Filter.normalize_letters s)
  ∧ Filter.normalize_letters s = ascii_lower <$> List.filter is_letter s.
Proof.
  split; [apply normalize_letters_idem|].
  split; [apply normalize_letters_az|apply normalize_letters_eq].
Qed.

(** On ASCII input the copy in filter_pairs.py agrees with it. *)
Lemma pairs_normalize_letters_ascii {U : Unicode} {HU : UnicodeLaws U}
    (s : str) :
  Forall (λ c, c < 128) s →
  FilterPairs.normalize_letters s = Filter.normalize_letters s.
Proof.
  unfold FilterPairs.normalize_letters, Filter.normalize_letters.
  induction 1 as [|c s Hc _ IH]; [done|].
  rewrite !bind_cons, IH, ALPHA_RE_one. by rewrite isalpha_ascii.
Qed.

(** C10, at the input U+0130: the copy in filter_pairs.py keeps the
    character ([isalpha] holds of it), lowers it to "i" followed by the
    combining dot U+0307, which is not alphabetic, and on a second run drops
    that dot: the result of one run is not a fixed point and is not made of
    letters only.  The copy in filter.py drops the character. *)
Lemma pairs_normalize_letters_dotted_I :
  FilterPairs.normalize_letters (U:=cpython_fragment) [304] = [105; 775]
  ∧ FilterPairs.normalize_letters (U:=cpython_fragment)
      (FilterPairs.normalize_letters (U:=cpython_fragment) [304]) = [105]
  ∧ py_isalpha (Unicode:=cpython_fragment) 775 = false
  ∧ Filter.normalize_letters (U:=cpython_fragment) [304] = [].
Proof. repeat split; vm_compute; reflexivity. Qed.

(** With that character before twelve letters, filter.py goes on with the
    square and filter_pairs.py refuses it, counting fourteen. *)
Example dotted_I_square :
  Filter.exit_code
    (Filter.main (U:=cpython_fragment)
       (Filter.Args (304 :: lit "abcdefghijkl") 3 false) []) = 0%Z
  ∧ FilterPairs.main (U:=cpython_fragment) (304 :: lit "abcdefghijkl") []
    = inr (FilterPairs.Outcome 2
             ["Input error: Expected 12 letters after normalization; got 14."]
             None).
Proof. split; vm_compute; reflexivity. Qed.

(** * filter_pairs.py: the indexed search *)

Section pairs_facts.
Implicit Types (words : list str) (ls : gset N)
  (by_start : gmap N (list str)) (pairs : list (str * str)).

Lemma extend_pairs_eq ls a cands pairs :
  FilterPairs.extend_pairs ls a cands pairs
  = pairs ++ (b ← cands;
              if decide (coverage_rule ls a b) then [(a, b)] else []).
Proof.
  revert pairs. induction cands as [|b cands IH]; intros pairs.
  { simpl. by rewrite app_nil_r. }
  rewrite bind_cons. simpl.
  destruct (decide (coverage_rule ls a b)) as [Hc|Hc];
    unfold coverage_rule in Hc.
  - rewrite decide_True by done. by rewrite IH, <-app_assoc.
  - rewrite decide_False by done. by rewrite IH.
Qed.

Lemma index_by_start_spec words by_start :
  Forall (λ w, w ≠ []) words →
  ∃ by_start',
    FilterPairs.index_by_start words by_start = inr by_start'
    ∧ ∀ c, default [] (by_start' !! c)
           = default [] (by_start !! c)
             ++ filter (λ w, head w = Some c) words.
Proof.
  intros Hne. revert by_start.
  induction Hne as [|w words Hw _ IH]; intros by_start.
  { exists by_start. split; [done|]. intros c. by rewrite app_nil_r. }
  destruct w as [|w0 w']; [done|]. simpl.
  destruct (IH (<[w0 := default [] (by_start !! w0) ++ [w0 :: w']]> by_start))
    as (by_start' & -> & Hlook).
  exists by_start'. split; [done|]. intros c. rewrite Hlook.
  rewrite filter_cons. simpl. destruct (decide (w0 = c)) as [->|Hc].
  - rewrite lookup_insert_eq. simpl.
    rewrite decide_True by done. by rewrite <-app_assoc.
  - rewrite lookup_insert_ne by done.
    rewrite decide_False by congruence. done.
Qed.

Lemma index_by_start_nonempty words by_start by_start' :
  FilterPairs.index_by_start words by_start = inr by_start' →
  Forall (λ w, w ≠ []) words.
Proof.
  revert by_start. induction words as [|w words IH]; intros by_start.
  { constructor. }
  destruct w as [|w0 w']; [done|]. simpl. intros H%IH. by constructor.
Qed.

(** The continuations of [a] found through the index are the words the
    chain rule admits. *)
Lemma candidates_chain ls a a_end all :
  last a = Some a_end →
  (b ← filter (λ w, head w = Some a_end) all;
   if decide (coverage_rule ls a b) then [(a, b)] else [])
  = (b ← all;
     if decide (chain_rule a b ∧ coverage_rule ls a b) then [(a, b)]
     else []).
Proof.
  intros Hlast. induction all as [|b all IH]; [done|].
  rewrite filter_cons, bind_cons.
  assert (chain_rule a b ↔ head b = Some a_end) as Hchain.
  { unfold chain_rule. rewrite Hlast. split; [by intros [_ <-]|].
    intros ->. by split. }
  destruct (decide (head b = Some a_end)) as [Hb|Hb].
  - rewrite bind_cons, IH. f_equal.
    destruct (decide (coverage_rule ls a b)).
    + rewrite decide_True; [done|]. by rewrite Hchain.
    + rewrite decide_False; [done|]. tauto.
  - rewrite IH. rewrite decide_False; [done|]. rewrite Hchain. tauto.
Qed.

Lemma chain_pairs_spec by_start ls all words pairs :
  Forall (λ w, w ≠ []) words →
  (∀ c, default [] (by_start !! c) = filter (λ w, head w = Some c) all) →
  FilterPairs.chain_pairs by_start ls words pairs
  = inr (pairs ++
         (a ← words; b ← all;
          if decide (chain_rule a b ∧ coverage_rule ls a b) then [(a, b)]
          else [])).
Proof.
  intros Hne Hidx. revert pairs.
  induction Hne as [|a words Ha _ IH]; intros pairs.
  { simpl. by rewrite app_nil_r. }
  simpl. destruct (last a) as [a_end|] eqn:Hlast.
  2:{ by apply last_None in Hlast. }
  rewrite IH, extend_pairs_eq, Hidx, (candidates_chain ls a a_end all Hlast).
  by rewrite <-app_assoc.
Qed.

Lemma find_pairs_naive words ls :
  Forall (λ w, w ≠ []) words →
  FilterPairs.find_pairs words ls = inr (naive_pairs words ls).
Proof.
  intros Hne. unfold FilterPairs.find_pairs.
  destruct (index_by_start_spec words ∅ Hne) as (by_start & -> & Hidx).
  rewrite (chain_pairs_spec by_start ls words words []); [done|done|].
  intros c. by rewrite Hidx, lookup_empty.
Qed.

Lemma find_pairs_nonempty words ls r :
  FilterPairs.find_pairs words ls = inr r → Forall (λ w, w ≠ []) words.
Proof.
  unfold FilterPairs.find_pairs.
  destruct (FilterPairs.index_by_start words ∅) as [|by_start] eqn:Hidx;
    [done|].
  intros _. by apply (index_by_start_nonempty words ∅ by_start).
Qed.

Lemma elem_of_naive_pairs words ls a b :
  (a, b) ∈ naive_pairs words ls ↔
  a ∈ words ∧ b ∈ words ∧ chain_rule a b ∧ coverage_rule ls a b.
Proof.
  unfold naive_pairs. rewrite list_elem_of_bind. split.
  - intros (a' & (b' & Hab & Hb')%list_elem_of_bind & Ha').
    case_decide as Hrules; [|by apply elem_of_nil in Hab].
    apply list_elem_of_singleton in Hab as [= -> ->]. tauto.
  - intros (Ha & Hb & Hrules). exists a. split; [|done].
    apply list_elem_of_bind. exists b. split; [|done].
    rewrite decide_True by tauto. apply list_elem_of_singleton. done.
Qed.

Lemma bind_pointwise_Permutation {A B} (f g : A → list B) (l : list A) :
  (∀ x, f x ≡ₚ g x) → l ≫= f ≡ₚ l ≫= g.
Proof.
  intros Hfg. induction l as [|x l IH]; [done|].
  by rewrite !bind_cons, Hfg, IH.
Qed.

Lemma naive_pairs_Permutation words words' ls :
  words ≡ₚ words' → naive_pairs words ls ≡ₚ naive_pairs words' ls.
Proof.
  intros Hp. unfold naive_pairs. rewrite <-Hp.
  apply bind_pointwise_Permutation. intros a. by rewrite Hp.
Qed.
End pairs_facts.

(** ** C2: the indexed search against the cross product *)

(** C2: on a list of nonempty words [find_pairs] returns the pairs of the
    reference cross product, in the same order; a pair is returned exactly
    when both words are in the list, the last letter of the first is the
    first letter of the second and the two words together cover the allowed
    letters; and reordering the list only reorders the pairs returned. *)
Theorem find_pairs_refines_naive (words : list str) (letters_set : gset N) :
  Forall (λ w, w ≠ []) words →
  FilterPairs.find_pairs words letters_set
  = inr (naive_pairs words letters_set)
  ∧ (∀ a b, (a, b) ∈ naive_pairs words letters_set ↔
            a ∈ words ∧ b ∈ words ∧ chain_rule a b
            ∧ coverage_rule letters_set a b)
  ∧ (∀ words', words' ≡ₚ words →
       ∃ r', FilterPairs.find_pairs words' letters_set = inr r'
             ∧ r' ≡ₚ naive_pairs words letters_set).
Proof.
  intros Hne. split; [by apply find_pairs_naive|].
  split; [intros a b; apply elem_of_naive_pairs|].
  intros words' Hp. exists (naive_pairs words' letters_set). split.
  - apply find_pairs_naive. by rewrite Hp.
  - by apply naive_pairs_Permutation.
Qed.

Lemma sample_words_nonempty : Forall (λ w : str, w ≠ []) sample_words.
Proof. apply (bool_decide_unpack _). vm_compute. exact I. Defined.

Lemma find_pairs_refines_naive_witness :
  Forall (λ w : str, w ≠ []) sample_words
  ∧ FilterPairs.find_pairs sample_words sample_letters
    = inr (naive_pairs sample_words sample_letters).
Proof.
  split; [exact sample_words_nonempty|].
  exact (proj1 (find_pairs_refines_naive sample_words sample_letters
                  sample_words_nonempty)).
Defined.

Example sample_pairs :
  FilterPairs.find_pairs sample_words sample_letters
  = inr [(lit "abcdefg", lit "ghijkl"); (lit "gfedcba", lit "alkjihg");
         (lit "alkjihg", lit "gfedcba")].
Proof. vm_compute. reflexivity. Qed.

(** ** C3: the pairs cover the square exactly *)

(** C3: when every word of the list uses allowed letters only, the letters of
    the two words of a returned pair are together exactly the allowed set. *)
Theorem pairs_cover_exactly (words : list str) (letters_set : gset N)
    (r : list (str * str)) (a b : str) :
  Forall (λ w : str, list_to_set w ⊆ letters_set) words →
  FilterPairs.find_pairs words letters_set = inr r →
  (a, b) ∈ r →
  list_to_set a ∪ list_to_set b = letters_set.
Proof.
  intros Hsub Hrun Hab.
  pose proof (find_pairs_nonempty _ _ _ Hrun) as Hne.
  rewrite (find_pairs_naive words letters_set Hne) in Hrun.
  injection Hrun as <-.
  apply elem_of_naive_pairs in Hab as (Ha & Hb & _ & Hcov).
  rewrite Forall_forall in Hsub. unfold coverage_rule in Hcov.
  apply (anti_symm (⊆)); [|done].
  apply union_least; [by apply (Hsub a)|by apply (Hsub b)].
Qed.

Lemma pairs_cover_exactly_witness :
  list_to_set (lit "abcdefg") ∪ list_to_set (lit "ghijkl") = sample_letters.
Proof.
  apply (pairs_cover_exactly sample_words sample_letters
           [(lit "abcdefg", lit "ghijkl"); (lit "gfedcba", lit "alkjihg");
            (lit "alkjihg", lit "gfedcba")]).
  - apply (bool_decide_unpack _). vm_compute. exact I.
  - vm_compute. reflexivity.
  - apply (bool_decide_unpack _). vm_compute. exact I.
Defined.

(** ** C9: no index out of range *)

(** C9: on nonempty words [find_pairs] returns a list and raises no
    IndexError; on the empty list it returns the empty list; and [main]
    of filter_pairs.py, which keeps words of at least three letters only,
    never has the search raise. *)
Theorem find_pairs_total (words : list str) (letters_set : gset N) :
  Forall (λ w, w ≠ []) words →
  (∃ r, FilterPairs.find_pairs words letters_set = inr r)
  ∧ FilterPairs.find_pairs [] letters_set = inr []
  ∧ (∀ (U : Unicode) letters wordlist,
       ∃ o, FilterPairs.main letters wordlist = inr o).
Proof.
  intros Hne. split; [|split; [done|]].
  - exists (naive_pairs words letters_set). by apply find_pairs_naive.
  - intros U letters wordlist. unfold FilterPairs.main.
    destruct (FilterPairs.split_sides _) as [[]|sides]; [by eexists|].
    rewrite find_pairs_naive; [by eexists|].
    apply Forall_forall.
    intros w [_ [_ Hlen%bool_decide_eq_true]%andb_true_iff]
      %list_elem_of_In%filter_In ->.
    simpl in Hlen. lia.
Qed.

Lemma find_pairs_total_witness :
  Forall (λ w : str, w ≠ []) sample_words
  ∧ ∃ r, FilterPairs.find_pairs sample_words sample_letters = inr r.
Proof.
  split; [exact sample_words_nonempty|].
  exact (proj1 (find_pairs_total sample_words sample_letters
                  sample_words_nonempty)).
Defined.

(** An empty word in the list does make the search raise. *)
Example find_pairs_empty_word :
  FilterPairs.find_pairs [lit "ab"; []] sample_letters = inl IndexError.
Proof. reflexivity. Qed.

(** * The scripts beyond the claims *)

Example ex_read_lines :
  read_lines (lit "fad" ++ [NEWLINE] ++ lit "gag" ++ [CR; NEWLINE] ++ lit "x"
              ++ [CR] ++ lit "y" ++ [NEWLINE; NEWLINE] ++ lit "end")
  = [lit "fad" ++ [NEWLINE]; lit "gag" ++ [NEWLINE]; lit "x" ++ [NEWLINE];
     lit "y" ++ [NEWLINE]; [NEWLINE]; lit "end"].
Proof. vm_compute. reflexivity. Qed.

Example ex_filter_script :
  FilterScript.main (U:=cpython_fragment)
    (FilterScript.Cli (abc_args 3 false) SortLength "out.txt")
    (join_lines [lit "fad"; lit "face"; lit "adgj"; lit "GAG"; lit "beh"])
  = FilterScript.Run 0
      [join_lines [lit "adgj"; lit "beh"; lit "fad"; lit "GAG"]]
      ["Wrote 4 words to out.txt"]
      (Some (join_lines [lit "adgj"; lit "beh"; lit "fad"; lit "GAG"]
             ++ [NEWLINE])).
Proof. vm_compute. reflexivity. Qed.

Example ex_pairs_script :
  FilterPairsScript.main (U:=cpython_fragment)
    (FilterPairsScript.Cli (lit "abcdefghijkl") SortCombinedLen None)
    (join_lines sample_words)
  = inr (FilterPairsScript.Run 0
           [join_lines [lit "alkjihg gfedcba"; lit "gfedcba alkjihg";
                        lit "abcdefg ghijkl"]] None).
Proof. vm_compute. reflexivity. Qed.

(** ** Sorting *)

Section sort_facts.
Context {A K : Type} `{Lexico K, !StrictOrder (@lexico K _),
                       !TrichotomyT (@lexico K _)}.
Variable key : A → K.

Lemma sort_insert_Permutation x l : sort_insert key x l ≡ₚ x :: l.
Proof.
  induction l as [|y l IH]; simpl; [done|].
  case_decide; [|done]. by rewrite IH, Permutation_swap.
Qed.

Lemma list_sort_Permutation l : list_sort key l ≡ₚ l.
Proof.
  induction l as [|x l IH]; simpl; [done|].
  by rewrite sort_insert_Permutation, IH.
Qed.

Lemma key_le_trans x y z : key_le key x y → key_le key y z → key_le key x z.
Proof.
  unfold key_le. intros Hxy Hyz Hzx.
  destruct (trichotomy lexico (key x) (key y)) as [Hlt|[Heq|Hgt]]; [| |done].
  - apply Hyz. by trans (key x).
  - apply Hyz. by rewrite <-Heq.
Qed.

Lemma key_lt_le x y : lexico (key x) (key y) → key_le key x y.
Proof.
  unfold key_le. intros Hxy Hyx.
  apply (irreflexivity lexico (key x)). by trans (key y).
Qed.

Lemma sort_insert_sorted x l :
  StronglySorted (key_le key) l →
  StronglySorted (key_le key) (sort_insert key x l).
Proof.
  induction 1 as [|y l Hl IH Hy]; simpl.
  { repeat constructor. }
  case_decide as Hyx.
  - constructor; [done|].
    rewrite sort_insert_Permutation. constructor; [|done].
    by apply key_lt_le.
  - constructor; [by constructor|]. constructor; [done|].
    eapply Forall_impl; [exact Hy|]. intros z Hz. simpl in Hz.
    by apply (key_le_trans x y z).
Qed.

Lemma list_sort_sorted l : StronglySorted (key_le key) (list_sort key l).
Proof.
  induction l as [|x l IH]; simpl; [constructor|].
  by apply sort_insert_sorted.
Qed.

(** Sorting leaves a sorted list as it is. *)
Lemma list_sort_fixed l :
  StronglySorted (key_le key) l → list_sort key l = l.
Proof.
  induction 1 as [|x l Hl IH Hx]; simpl; [done|].
  rewrite IH. destruct l as [|y l]; simpl; [done|].
  apply Forall_cons in Hx as [Hxy _]. by rewrite decide_False.
Qed.

Lemma list_sort_idem l : list_sort key (list_sort key l) = list_sort key l.
Proof. apply list_sort_fixed, list_sort_sorted. Qed.

Lemma key_le_tied x y : key x = key y ↔ key_le key x y ∧ key_le key y x.
Proof.
  unfold key_le. split.
  - intros ->. split; apply (irreflexivity lexico).
  - intros [Hxy Hyx].
    by destruct (trichotomy lexico (key x) (key y)) as [?|[?|?]].
Qed.

(** The sort is stable: an element is only moved past elements of smaller
    key, so the elements of one key keep the order they had. *)
Lemma sort_insert_stable `{!EqDecision K} (k : K) x l :
  filter (λ y, key y = k) (sort_insert key x l)
  = filter (λ y, key y = k) (x :: l).
Proof.
  induction l as [|y l IH]; simpl; [done|].
  case_decide as Hyx; [|done].
  rewrite (filter_cons _ x), (filter_cons _ y), (filter_cons _ y), IH.
  rewrite (filter_cons _ x).
  destruct (decide (key y = k)) as [Hy|Hy]; [|done].
  destruct (decide (key x = k)) as [Hx|Hx]; [|done].
  rewrite Hy, Hx in Hyx. by apply (irreflexivity lexico) in Hyx.
Qed.

Lemma list_sort_stable `{!EqDecision K} (k : K) l :
  filter (λ y, key y = k) (list_sort key l) = filter (λ y, key y = k) l.
Proof.
  induction l as [|x l IH]; simpl; [done|].
  by rewrite sort_insert_stable, !filter_cons, IH.
Qed.
End sort_facts.

(** ** [split_sides] *)

(** X1: [split_sides] succeeds exactly on strings of 12 characters, and then
    gives four sides of three characters each that, put end to end, are the
    string again; the copy in filter_pairs.py is the same function. *)
Theorem split_sides_shape (twelve : str) :
  (length twelve = 12%nat ↔ ∃ sides, Filter.split_sides twelve = inr sides)
  ∧ (∀ sides, Filter.split_sides twelve = inr sides →
       length sides = 4%nat ∧ Forall (λ side, length side = 3%nat) sides
       ∧ concat sides = twelve)
  ∧ FilterPairs.split_sides twelve = Filter.split_sides twelve.
Proof.
  split; [|split; [|done]].
  - unfold Filter.split_sides. case_decide as Hlen.
    + split; [lia|]. by intros [sides [=]].
    + split; [by eexists|]. lia.
  - intros sides Hsplit. unfold Filter.split_sides in Hsplit.
    case_decide as Hlen; [done|]. injection Hsplit as <-.
    assert (length twelve = 12%nat) as H12 by lia.
    split; [done|]. split; [|by apply concat_slices].
    unfold slice. repeat constructor;
      rewrite length_take, length_drop; lia.
Qed.

(** ** The pattern by itself *)

Lemma has_adjacent_false R w :
  has_adjacent R w = false ↔ ∀ c c', adjacent w c c' → R c c' = false.
Proof.
  split.
  - intros Hno c c' (pre & post & ->). apply not_true_is_false. intros HR.
    assert (has_adjacent R (pre ++ c :: c' :: post) = true); [|congruence].
    apply has_adjacent_spec. by exists pre, c, c', post.
  - intros Hno. apply not_true_is_false.
    intros (pre & c & c' & post & -> & HR)%has_adjacent_spec.
    rewrite Hno in HR; [done|]. by exists pre, post.
Qed.

Lemma has_adjacent_fmap (R R' : char → char → bool) (f : char → char) w :
  (∀ c c', c ∈ w → c' ∈ w → R c c' = R' (f c) (f c')) →
  has_adjacent R w = has_adjacent R' (f <$> w).
Proof.
  induction w as [|c [|c' w] IH]; intros HR; [done..|].
  change (R c c' || has_adjacent R (c' :: w)
          = R' (f c) (f c') || has_adjacent R' (f <$> c' :: w)).
  rewrite IH, HR; [done|by left|by right; left|].
  intros d d' Hd Hd'. apply HR; by right.
Qed.

(** X2: for sides of lower-case letters, at least one and none of them
    empty (so that the pattern compiles), the case-sensitive pattern matches
    a word exactly when the four rules of its docstring hold: at least three
    characters, each a letter of the square, no two neighbours equal, no two
    neighbours on one side. *)
Theorem regex_enforces_rules {U : Unicode} {HU : UnicodeLaws U}
    (sides : list str) (w : str) :
  nonempty_sides sides →
  letter_sides sides →
  fullmatch (Filter.build_letterboxed_regex sides false) w = true ↔
  (3 ≤ length w)%nat
  ∧ (∀ c, c ∈ w → ∃ side, side ∈ sides ∧ c ∈ side)
  ∧ (∀ c c', adjacent w c c' → c ≠ c')
  ∧ (∀ c c' side, adjacent w c c' → side ∈ sides → ¬ (c ∈ side ∧ c' ∈ side)).
Proof.
  intros _ Hsides. rewrite (fullmatch_square sides Hsides).
  rewrite !andb_true_iff, bool_decide_eq_true, negb_true_iff.
  rewrite !forallb_elem_of, has_adjacent_false.
  assert (∀ side c, side ∈ sides →
            in_class false (sorted_set side) c = true ↔ c ∈ side) as Hedge.
  { intros side c _. by rewrite in_class_exact, elem_of_sorted_set. }
  split.
  - intros [[[H3 Hall] Hdbl] Hedges].
    assert (∀ c, c ∈ w → ∃ side, side ∈ sides ∧ c ∈ side) as Hin.
    { intros c Hc. apply (elem_of_allowed sides Hsides), in_class_exact.
      by apply Hall. }
    split; [done|]. split; [done|]. split.
    + intros c c' Hadj ->. specialize (Hdbl c' c' Hadj).
      destruct (adjacent_elem_of (U:=U) _ _ _ Hadj) as [Hc _].
      destruct (Hin c' Hc) as (side & Hs & Hside).
      unfold doubled, ref_match in Hdbl.
      rewrite bool_decide_eq_true_2, andb_true_r in Hdbl by done.
      apply not_true_iff_false in Hdbl. apply Hdbl, in_class_exact.
      apply elem_of_char_range; [lia|].
      by apply is_az_spec, (side_az sides Hsides side).
    + intros c c' side Hadj Hs [Hc Hc'].
      assert (sorted_set side ∈ norm_sides_of sides) as Hn.
      { apply (elem_of_norm_sides sides Hsides). by exists side. }
      specialize (Hedges _ Hn). apply negb_true_iff in Hedges.
      rewrite has_adjacent_false in Hedges. specialize (Hedges c c' Hadj).
      unfold both_in in Hedges.
      rewrite (proj2 (Hedge side c Hs) Hc), (proj2 (Hedge side c' Hs) Hc')
        in Hedges. done.
  - intros (H3 & Hin & Hneq & Hside). repeat split.
    + done.
    + intros c Hc. apply in_class_exact, (elem_of_allowed sides Hsides).
      by apply Hin.
    + intros c c' Hadj. unfold doubled, ref_match.
      rewrite (bool_decide_eq_false_2 (c = c')); [apply andb_false_r|].
      by apply Hneq.
    + intros edge (side & Hs & ->)%(elem_of_norm_sides sides Hsides).
      apply negb_true_iff, has_adjacent_false. intros c c' Hadj.
      apply not_true_is_false. unfold both_in. rewrite andb_true_iff.
      intros [Hc Hc']. apply (Hside c c' side Hadj Hs).
      by rewrite <-!(Hedge side) by done.
Qed.

Lemma regex_enforces_rules_witness :
  (nonempty_sides abc_sides ∧ letter_sides abc_sides)
  ∧ (fullmatch (Filter.build_letterboxed_regex (U:=cpython_fragment)
                  abc_sides false) (lit "fad") = true ↔
     (3 ≤ length (lit "fad"))%nat
     ∧ (∀ c, c ∈ lit "fad" → ∃ side, side ∈ abc_sides ∧ c ∈ side)
     ∧ (∀ c c', adjacent (lit "fad") c c' → c ≠ c')
     ∧ (∀ c c' side, adjacent (lit "fad") c c' → side ∈ abc_sides →
          ¬ (c ∈ side ∧ c' ∈ side))).
Proof.
  assert (nonempty_sides abc_sides) as Hne.
  { split; [done|]. by repeat constructor. }
  split; [split; [exact Hne|exact abc_letter_sides]|].
  exact (regex_enforces_rules (U:=cpython_fragment) abc_sides (lit "fad")
           Hne abc_letter_sides).
Defined.

Lemma ascii_lower_ascii c : c < 128 → ascii_lower c < 128.
Proof.
  intros Hc. unfold ascii_lower. destruct (is_AZ c) eqn:E; [|done].
  apply is_AZ_spec in E. lia.
Qed.

Section fold_facts.
Context {U : Unicode} {HU : UnicodeLaws U}.

Lemma in_class_fold_ascii cs c :
  Forall (λ d, is_az d = true) cs → c < 128 →
  in_class true cs c = in_class false cs (ascii_lower c).
Proof.
  intros Hcs Hc. apply Bool.eq_iff_eq_true.
  rewrite (in_class_fold_lower cs c (ascii_lower c) Hcs), in_class_exact;
    [done|by apply lower_one_ascii|by apply ascii_lower_ascii].
Qed.

Lemma doubled_fold_ascii c c' :
  c < 128 → c' < 128 →
  doubled true c c' = doubled false (ascii_lower c) (ascii_lower c').
Proof.
  intros Hc Hc'. unfold doubled, ref_match.
  rewrite (in_class_fold_ascii _ c char_range_az Hc).
  by rewrite !sre_lower_ascii.
Qed.
End fold_facts.

(** X3: on an ASCII word, the pattern compiled with IGNORECASE does what the
    case-sensitive pattern does on the lowered word. *)
Theorem regex_ignorecase_lowers {U : Unicode} {HU : UnicodeLaws U}
    (sides : list str) (w : str) :
  letter_sides sides → Forall (λ c, c < 128) w →
  fullmatch (Filter.build_letterboxed_regex sides true) w
  = fullmatch (Filter.build_letterboxed_regex sides false) (ascii_lower <$> w).
Proof.
  intros Hsides Hw. rewrite !(fullmatch_square sides Hsides), length_fmap.
  rewrite Forall_forall in Hw.
  assert (Forall (λ d, is_az d = true) (allowed_of sides)) as Hal
    by by apply allowed_az.
  f_equal; [f_equal; [f_equal|]|].
  - induction w as [|c w IH]; [done|]. csimpl.
    rewrite IH by (intros ??; apply Hw; by right).
    by rewrite (in_class_fold_ascii _ c Hal) by (apply Hw; by left).
  - f_equal. apply has_adjacent_fmap. intros c c' Hc Hc'.
    apply doubled_fold_ascii; by apply Hw.
  - apply forallb_elem_of_ext.
    intros edge (side & Hs & ->)%(elem_of_norm_sides sides Hsides). f_equal.
    apply has_adjacent_fmap. intros c c' Hc Hc'. unfold both_in.
    by rewrite !(in_class_fold_ascii (sorted_set side))
      by (try apply (edge_az sides Hsides side Hs); by apply Hw).
Qed.

Lemma regex_ignorecase_lowers_witness :
  (letter_sides abc_sides ∧ Forall (λ c, c < 128) (lit "FaD"))
  ∧ fullmatch (Filter.build_letterboxed_regex (U:=cpython_fragment)
                 abc_sides true) (lit "FaD")
    = fullmatch (Filter.build_letterboxed_regex (U:=cpython_fragment)
                   abc_sides false) (ascii_lower <$> lit "FaD").
Proof.
  assert (Forall (λ c, c < 128) (lit "FaD")) as Hw.
  { apply (bool_decide_unpack _). vm_compute. exact I. }
  split; [split; [exact abc_letter_sides|exact Hw]|].
  exact (regex_ignorecase_lowers (U:=cpython_fragment) abc_sides (lit "FaD")
           abc_letter_sides Hw).
Defined.

(** ** The loop of filter.py: options and word lists *)

Section loop_options.
Context {U : Unicode}.


Lemma filter_andb {A} (p q : A → bool) l :
  List.filter (λ x, p x && q x) l = List.filter q (List.filter p l).
Proof.
  induction l as [|x l IH]; simpl; [done|].
  destruct (p x); simpl; [|done]. by rewrite IH.
Qed.

End loop_options.


(** X5: the loop takes the lines one by one and in order: the kept words are
    a sublist of the stripped lines, and the words kept of two word lists
    put end to end are the words kept of the first followed by those of the
    second. *)
Theorem main_line_by_line {U : Unicode} (a : Filter.args) (f : list str)
    (V : list str) :
  Filter.valid (Filter.main a f) = Some V →
  V `sublist_of` (strip <$> f)
  ∧ ∀ f' V', Filter.valid (Filter.main a f') = Some V' →
             Filter.valid (Filter.main a (f ++ f')) = Some (V ++ V').
Proof.
  unfold Filter.main.
  destruct (Filter.split_sides _) as [[]|sides]; [done|]. simpl.
  rewrite kept_eq. intros [= <-]. split.
  - induction (strip <$> f) as [|w l IH]; simpl; [done|].
    destruct (loop_accepts _ _ _ w); by constructor.
  - intros f' V'. rewrite !kept_eq. intros [= <-].
    by rewrite fmap_app, List.filter_app.
Qed.

Lemma main_line_by_line_witness :
  Filter.valid (Filter.main (U:=cpython_fragment) (abc_args 3 false)
                  [lit " fad"; lit "face"; lit "GAG "])
  = Some [lit "fad"; lit "GAG"]
  ∧ [lit "fad"; lit "GAG"]
    `sublist_of` (strip (U:=cpython_fragment)
                    <$> [lit " fad"; lit "face"; lit "GAG "]).
Proof.
  assert (Filter.valid (Filter.main (U:=cpython_fragment) (abc_args 3 false)
                          [lit " fad"; lit "face"; lit "GAG "])
          = Some [lit "fad"; lit "GAG"]) as Hrun by (vm_compute; reflexivity).
  split; [exact Hrun|].
  exact (proj1 (main_line_by_line (U:=cpython_fragment) (abc_args 3 false)
                  _ _ Hrun)).
Defined.

(** ** Case-sensitive against case-insensitive *)

Section case_modes.
Context {U : Unicode} {HU : UnicodeLaws U}.
Variable sides : list str.
Hypothesis Hsides : letter_sides sides.

Lemma on_side_exact_fold side c :
  side ∈ sides → on_side false side c → on_side true side c.
Proof.
  intros Hs (d & Hd & Ha & ->). exists d. split; [done|]. split; [done|].
  rewrite lower_one_ascii by by apply (side_ascii sides Hsides side).
  by rewrite ascii_lower_az by by apply (side_az sides Hsides side).
Qed.

Lemma on_side_fold_exact side c :
  side ∈ sides → is_az c = true → on_side true side c → on_side false side c.
Proof.
  intros Hs Hc (d & Hd & Ha & Hlow). exists d. split; [done|].
  split; [done|].
  rewrite lower_one_ascii, ascii_lower_az in Hlow;
    [by injection Hlow|done|]. apply is_az_spec in Hc. lia.
Qed.

Lemma valid_word_modes ml w :
  valid_word false sides ml w ↔
  valid_word true sides ml w ∧ Forall (λ c, is_az c = true) w.
Proof.
  split.
  - intros [Hlen Hin Hneq Hside].
    assert (∀ c, c ∈ w → is_az c = true) as Haz.
    { intros c Hc. destruct (Hin c Hc) as (side & Hs & d & Hd & _ & ->).
      by apply (side_az sides Hsides side). }
    split; [|by apply Forall_forall]. split; [done| |done|].
    + intros c Hc. destruct (Hin c Hc) as (side & Hs & Hon).
      exists side. split; [done|]. by apply on_side_exact_fold.
    + intros c c' side Hadj Hs [Hc Hc'].
      destruct (adjacent_elem_of (U:=U) _ _ _ Hadj) as [Hcw Hcw'].
      apply (Hside c c' side Hadj Hs).
      split; apply on_side_fold_exact; auto.
  - intros [[Hlen Hin Hneq Hside] Haz]. rewrite Forall_forall in Haz.
    split; [done| |done|].
    + intros c Hc. destruct (Hin c Hc) as (side & Hs & Hon).
      exists side. split; [done|]. apply on_side_fold_exact; auto.
    + intros c c' side Hadj Hs [Hc Hc'].
      apply (Hside c c' side Hadj Hs).
      split; by apply on_side_exact_fold.
Qed.

Lemma loop_accepts_modes ml w :
  loop_accepts (Filter.build_letterboxed_regex sides false)
    (list_to_set (concat sides)) ml w
  = loop_accepts (Filter.build_letterboxed_regex sides true)
      (list_to_set (concat sides)) ml w
    && forallb is_az w.
Proof.
  apply Bool.eq_iff_eq_true.
  rewrite andb_true_iff, !(accepts_iff sides Hsides), valid_word_modes.
  rewrite forallb_elem_of, Forall_forall. tauto.
Qed.
End case_modes.

(** X6: with [--case-sensitive] the script keeps the words it keeps without
    it that are written in the letters a-z only, in the same order. *)
Theorem case_sensitive_post_filters {U : Unicode} {HU : UnicodeLaws U}
    (letters : str) (ml : Z) (f : list str) :
  Filter.valid (Filter.main (Filter.Args letters ml true) f)
  = List.filter (forallb is_az)
      <$> Filter.valid (Filter.main (Filter.Args letters ml false) f).
Proof.
  unfold Filter.main. simpl.
  destruct (Filter.split_sides _) as [[]|sides] eqn:Hsplit; [done|]. simpl.
  pose proof (square_letters _ _ Hsplit) as Hsides.
  rewrite !kept_eq. f_equal. rewrite <-filter_andb.
  induction (strip <$> f) as [|w l IH]; simpl; [done|].
  by rewrite IH, (loop_accepts_modes sides Hsides).
Qed.

Lemma case_sensitive_post_filters_witness :
  Filter.valid (Filter.main (U:=cpython_fragment)
                  (Filter.Args (lit "abcdefghijkl") 3 true)
                  [lit "fad"; lit "GAG"; lit "Beh"; lit "adgj"])
  = List.filter (forallb is_az)
      <$> Filter.valid (Filter.main (U:=cpython_fragment)
                          (Filter.Args (lit "abcdefghijkl") 3 false)
                          [lit "fad"; lit "GAG"; lit "Beh"; lit "adgj"]).
Proof.
  exact (case_sensitive_post_filters (U:=cpython_fragment)
           (lit "abcdefghijkl") 3
           [lit "fad"; lit "GAG"; lit "Beh"; lit "adgj"]).
Defined.

(** ** The sorts of the two scripts *)

Lemma StronglySorted_iff {A} (R R' : relation A) l :
  (∀ x y, R x y ↔ R' x y) → StronglySorted R l ↔ StronglySorted R' l.
Proof.
  intros HR. split; induction 1 as [|x l Hl IH Hx]; constructor; auto;
    (eapply Forall_impl; [exact Hx|]); intros y Hy; by apply HR.
Qed.

Lemma length_key_le {U : Unicode} x y :
  key_le FilterScript.length_key x y ↔ valid_order SortLength x y.
Proof.
  unfold key_le, FilterScript.length_key, valid_order.
  unfold lexico at 1, prod_lexico. simpl. unfold lexico at 1, Z_lexico.
  split.
  - intros Hno. destruct (decide (length y < length x)%nat); [by left|].
    right. assert (length x = length y) as Heq.
    { destruct (decide (length x = length y)); [done|].
      exfalso. apply Hno. left. lia. }
    split; [done|]. intros Hlt. apply Hno. right. split; [|done].
    by rewrite Heq.
  - intros [Hlt|[Heq Hno]] [Hlt'|[Heq' Hlt']]; try lia. done.
Qed.

Lemma combined_len_key_le p q :
  key_le FilterPairsScript.combined_len_key p q ↔ pairs_order SortCombinedLen p q.
Proof.
  unfold key_le, FilterPairsScript.combined_len_key, pairs_order, combined_len.
  unfold lexico at 1, prod_lexico. simpl. unfold lexico at 1, Z_lexico.
  destruct p as [a b], q as [a' b']. simpl. split.
  - intros Hno.
    destruct (decide (length a' + length b' < length a + length b)%nat);
      [by left|].
    right. assert (length a + length b = length a' + length b')%nat as Heq.
    { destruct (decide (length a + length b = length a' + length b')%nat);
        [done|].
      exfalso. apply Hno. left. lia. }
    split; [done|]. intros Hlt. apply Hno. right. split; [lia|done].
  - intros [Hlt|[Heq Hno]] [Hlt'|[Heq' Hlt']]; try lia. done.
Qed.

(** Two words have the same sort key when each may stand before the
    other. *)
Lemma valid_tied_order {U : Unicode} by_ x y :
  valid_tied by_ x y ↔ valid_order by_ x y ∧ valid_order by_ y x.
Proof.
  destruct by_.
  - rewrite <-!length_key_le. apply (key_le_tied FilterScript.length_key).
  - apply (key_le_tied py_lower).
Qed.

(** X7: the sort of filter.py rearranges the kept words without losing or
    repeating any; afterwards every word stands before every later one in
    the order asked for (longer first and then by lowered text, or by
    lowered text alone); a list already in that order is left as it is; and
    the sort is stable: the words that have the sort key of a word [w] come
    out in the order they went in. *)
Theorem sort_valid_sorted {U : Unicode} (by_ : filter_sort)
    (valid : list str) :
  FilterScript.sort_valid by_ valid ≡ₚ valid
  ∧ StronglySorted (valid_order by_) (FilterScript.sort_valid by_ valid)
  ∧ (StronglySorted (valid_order by_) valid →
     FilterScript.sort_valid by_ valid = valid)
  ∧ (∀ w, filter (λ x, valid_tied by_ x w) (FilterScript.sort_valid by_ valid)
          = filter (λ x, valid_tied by_ x w) valid).
Proof.
  destruct by_; simpl.
  - split; [apply list_sort_Permutation|]. split; [|split].
    + apply (StronglySorted_iff _ _ _ length_key_le), list_sort_sorted.
    + intros Hs. by apply list_sort_fixed, (StronglySorted_iff _ _ _ length_key_le).
    + intros w.
      rewrite <-(list_sort_stable FilterScript.length_key
                   (FilterScript.length_key w) valid).
      by apply list_filter_iff.
  - split; [apply list_sort_Permutation|]. split; [|split].
    + apply list_sort_sorted.
    + apply list_sort_fixed.
    + intros w. rewrite <-(list_sort_stable py_lower (py_lower w) valid).
      by apply list_filter_iff.
Qed.

(** With [--sort alpha] the words "b", "A", "a" come out as "A", "a", "b":
    "A" and "a" have the same key and keep their order. *)
Example ex_sort_stable :
  FilterScript.sort_valid (U:=cpython_fragment) SortAlpha
    [lit "b"; lit "A"; lit "a"]
  = [lit "A"; lit "a"; lit "b"].
Proof. vm_compute. reflexivity. Qed.

(** X8: the sort of filter_pairs.py rearranges the pairs without losing or
    repeating any; afterwards every pair stands before every later one in
    the order asked for (greater combined length first and then by the two
    words, or by the two words alone); and a list already in that order is
    left as it is. *)
Theorem sort_pairs_sorted (by_ : pairs_sort) (pairs : list (str * str)) :
  FilterPairsScript.sort_pairs by_ pairs ≡ₚ pairs
  ∧ StronglySorted (pairs_order by_) (FilterPairsScript.sort_pairs by_ pairs)
  ∧ (StronglySorted (pairs_order by_) pairs →
     FilterPairsScript.sort_pairs by_ pairs = pairs).
Proof.
  assert (∀ p q : str * str,
            key_le (λ ab : str * str, (ab.1, ab.2)) p q
            ↔ pairs_order SortPairsAlpha p q) as Halpha.
  { by intros [??] [??]. }
  destruct by_; simpl.
  - split; [apply list_sort_Permutation|]. split.
    + apply (StronglySorted_iff _ _ _ combined_len_key_le), list_sort_sorted.
    + intros Hs.
      by apply list_sort_fixed, (StronglySorted_iff _ _ _ combined_len_key_le).
  - split; [apply list_sort_Permutation|]. split.
    + apply (proj1 (StronglySorted_iff _ _ _ Halpha)).
      exact (list_sort_sorted (λ ab : str * str, (ab.1, ab.2)) pairs).
    + intros Hs. apply (list_sort_fixed (λ ab : str * str, (ab.1, ab.2))).
      by apply (proj2 (StronglySorted_iff _ _ _ Halpha)).
Qed.

(** ** Writing the words out and reading them back *)

Lemma read_lines_from_word cur w t :
  NEWLINE ∉ w → CR ∉ w →
  read_lines_from cur (w ++ t) = read_lines_from (reverse w ++ cur) t.
Proof.
  revert cur. induction w as [|c w IH]; intros cur Hnl Hcr; [done|].
  apply not_elem_of_cons in Hnl as [Hc1 Hnl].
  apply not_elem_of_cons in Hcr as [Hc2 Hcr]. simpl.
  rewrite decide_False, decide_False by done.
  rewrite IH by done. by rewrite reverse_cons, <-app_assoc.
Qed.

Lemma read_lines_from_line w t :
  NEWLINE ∉ w → CR ∉ w →
  read_lines_from [] (as_line w ++ t) = as_line w :: read_lines_from [] t.
Proof.
  intros Hnl Hcr. unfold as_line. rewrite <-app_assoc.
  rewrite read_lines_from_word by done. simpl.
  by rewrite app_nil_r, reverse_cons, reverse_involutive.
Qed.

Lemma read_lines_concat ws :
  Forall (λ w, (NEWLINE ∉ w) ∧ (CR ∉ w)) ws →
  read_lines (concat (as_line <$> ws)) = as_line <$> ws.
Proof.
  unfold read_lines. induction 1 as [|w ws [Hnl Hcr] _ IH]; [done|].
  csimpl. by rewrite read_lines_from_line, IH.
Qed.

Lemma join_lines_nonempty w ws : w ≠ [] → join_lines (w :: ws) ≠ [].
Proof. by destruct w, ws. Qed.

Lemma file_text_join ws :
  Forall (λ w, w ≠ []) ws →
  file_text (join_lines ws) = concat (as_line <$> ws).
Proof.
  induction 1 as [|w ws Hw Hws IH]; [done|].
  destruct ws as [|w' ws].
  - simpl. destruct w; [done|]. simpl. by rewrite app_nil_r.
  - change (join_lines (w :: w' :: ws))
      with (w ++ NEWLINE :: join_lines (w' :: ws)).
    rewrite fmap_cons. change (concat (as_line w :: ?l))
      with (as_line w ++ concat l).
    rewrite <-IH. apply Forall_cons in Hws as [Hw' _].
    pose proof (join_lines_nonempty w' ws Hw') as Hj.
    destruct (join_lines (w' :: ws)) as [|j js] eqn:Ej; [done|].
    unfold file_text, as_line. destruct w; simpl; by rewrite <-?app_assoc.
Qed.

(** X9: a list of nonempty words free of line ends, written out as the
    scripts write their output file (joined by newlines, with a newline at
    the end) and read back as they read a word list, comes back as one line
    per word, each the word followed by a newline. *)
Theorem written_lines_read_back (ws : list str) :
  Forall (λ w, w ≠ [] ∧ (NEWLINE ∉ w) ∧ (CR ∉ w)) ws →
  read_lines (file_text (join_lines ws)) = as_line <$> ws.
Proof.
  intros Hws. rewrite file_text_join, read_lines_concat; [done|..];
    (eapply Forall_impl; [exact Hws|]); simpl; tauto.
Qed.

Lemma written_lines_read_back_witness :
  Forall (λ w : str, w ≠ [] ∧ (NEWLINE ∉ w) ∧ (CR ∉ w)) [lit "adgj"; lit "fad"]
  ∧ read_lines (file_text (join_lines [lit "adgj"; lit "fad"]))
    = as_line <$> [lit "adgj"; lit "fad"].
Proof.
  assert (Forall (λ w : str, w ≠ [] ∧ (NEWLINE ∉ w) ∧ (CR ∉ w))
            [lit "adgj"; lit "fad"]) as Hws.
  { apply (bool_decide_unpack _). vm_compute. exact I. }
  split; [exact Hws|]. exact (written_lines_read_back _ Hws).
Defined.

(** ** filter.py run on what it wrote *)

Lemma filter_all_pass {A} (p : A → bool) (l : list A) :
  Forall (λ x, p x = true) l → List.filter p l = l.
Proof. induction 1 as [|x l Hx _ IH]; simpl; [done|]. by rewrite Hx, IH. Qed.

Section rerun.
Context {U : Unicode} {HU : UnicodeLaws U}.

Lemma loop_accepts_alpha rx al ml (w : str) :
  loop_accepts rx al ml w = true →
  w ≠ [] ∧ ∀ c, c ∈ w → py_isalpha c = true.
Proof.
  intros Ha. split; [by apply accepts_nonempty in Ha|].
  unfold loop_accepts in Ha. rewrite !andb_true_iff in Ha.
  destruct Ha as [[_ Halpha] _]. intros c. by apply str_isalpha_all.
Qed.

Lemma alpha_not_line_end (w : str) :
  (∀ c, c ∈ w → py_isalpha c = true) → (NEWLINE ∉ w) ∧ (CR ∉ w).
Proof.
  intros Hw. split; intros Hin%Hw; by rewrite isalpha_ascii in Hin.
Qed.

Lemma alpha_not_space (w : str) :
  (∀ c, c ∈ w → py_isalpha c = true) →
  Forall (λ c, py_isspace c = false) w.
Proof.
  intros Hw. apply Forall_forall. intros c Hc%Hw.
  destruct (py_isspace c) eqn:E; [|done].
  apply isspace_not_alpha in E. congruence.
Qed.

Lemma strip_as_line (w : str) :
  py_isspace NEWLINE = true → w ≠ [] →
  Forall (λ c, py_isspace c = false) w → strip (as_line w) = w.
Proof.
  intros Hnl Hne Hw. unfold strip, rstrip, as_line.
  rewrite (lstrip_id (w ++ [NEWLINE])).
  2:{ destruct Hw as [|c w Hc _]; [done|]. exact Hc. }
  rewrite reverse_app. simpl. rewrite Hnl.
  rewrite lstrip_id; [apply reverse_involutive|].
  apply Forall_reverse in Hw. by destruct Hw.
Qed.

Lemma sort_valid_Permutation by_ valid :
  FilterScript.sort_valid by_ valid ≡ₚ valid.
Proof. destruct by_; apply list_sort_Permutation. Qed.

Lemma sort_valid_idem by_ valid :
  FilterScript.sort_valid by_ (FilterScript.sort_valid by_ valid)
  = FilterScript.sort_valid by_ valid.
Proof. destruct by_; apply list_sort_idem. Qed.

(** The lines of the file written for kept words, stripped, are the words. *)
Lemma kept_lines_strip rx al ml ws :
  py_isspace NEWLINE = true →
  Forall (λ w, loop_accepts rx al ml w = true) ws →
  strip <$> read_lines (file_text (join_lines ws)) = ws.
Proof.
  intros Hnl Hws.
  assert (Forall (λ w, w ≠ [] ∧ ∀ c, c ∈ w → py_isalpha c = true) ws) as Hal.
  { eapply Forall_impl; [exact Hws|]. intros w. apply loop_accepts_alpha. }
  rewrite file_text_join, read_lines_concat.
  - induction Hal as [|w ws' [Hne Hw] _ IH]; [done|]. csimpl.
    rewrite strip_as_line by auto using alpha_not_space.
    apply Forall_cons in Hws as [_ Hws]. by rewrite IH.
  - eapply Forall_impl; [exact Hal|]. intros w [_ Hw].
    by apply alpha_not_line_end.
  - eapply Forall_impl; [exact Hal|]. by intros w [Hne _].
Qed.
End rerun.

(** X10: filter.py run on the file it wrote, with the same options, prints
    and writes the same again: the same exit code, the same text on stdout,
    the same lines on stderr and the same file. *)
Theorem filter_script_rerun {U : Unicode} {HU : UnicodeLaws U}
    (c : FilterScript.cli) (wordlist text : str) :
  py_isspace NEWLINE = true →
  FilterScript.written (FilterScript.main c wordlist) = Some text →
  FilterScript.main c text = FilterScript.main c wordlist.
Proof.
  intros Hnl. unfold FilterScript.main, Filter.main.
  destruct (Filter.split_sides _) as [[]|sides]; [done|]. simpl.
  rewrite !kept_eq.
  set (rx := Filter.build_letterboxed_regex _ _).
  set (al := list_to_set (concat sides) : gset N).
  set (ml := Filter.min_length (FilterScript.core c)).
  set (V := List.filter (loop_accepts rx al ml) (strip <$> read_lines wordlist)).
  set (SV := FilterScript.sort_valid (FilterScript.sort c) V).
  intros [= <-].
  assert (Forall (λ w, loop_accepts rx al ml w = true) SV) as Hacc.
  { apply Forall_forall. intros w Hw. unfold SV in Hw.
    rewrite sort_valid_Permutation in Hw.
    by apply list_elem_of_In, filter_In in Hw as [_ Hw]. }
  rewrite (kept_lines_strip rx al ml SV Hnl Hacc).
  rewrite (filter_all_pass (loop_accepts rx al ml) SV Hacc).
  unfold SV. by rewrite sort_valid_idem.
Qed.

Lemma filter_script_rerun_witness :
  (py_isspace (Unicode:=cpython_fragment) NEWLINE = true
   ∧ FilterScript.written
       (FilterScript.main (U:=cpython_fragment)
          (FilterScript.Cli (abc_args 3 false) SortLength "out.txt")
          (join_lines [lit "fad"; lit "face"; lit "adgj"; lit "GAG"]))
     = Some (file_text (join_lines [lit "adgj"; lit "fad"; lit "GAG"])))
  ∧ FilterScript.main (U:=cpython_fragment)
      (FilterScript.Cli (abc_args 3 false) SortLength "out.txt")
      (file_text (join_lines [lit "adgj"; lit "fad"; lit "GAG"]))
    = FilterScript.main (U:=cpython_fragment)
        (FilterScript.Cli (abc_args 3 false) SortLength "out.txt")
        (join_lines [lit "fad"; lit "face"; lit "adgj"; lit "GAG"]).
Proof.
  assert (FilterScript.written
            (FilterScript.main (U:=cpython_fragment)
               (FilterScript.Cli (abc_args 3 false) SortLength "out.txt")
               (join_lines [lit "fad"; lit "face"; lit "adgj"; lit "GAG"]))
          = Some (file_text (join_lines [lit "adgj"; lit "fad"; lit "GAG"])))
    as Hrun by (vm_compute; reflexivity).
  split; [split; [reflexivity|exact Hrun]|].
  exact (filter_script_rerun (U:=cpython_fragment) _ _ _ eq_refl Hrun).
Defined.

(** ** filter_pairs.py on ASCII input *)

Section pairs_ascii.
Context {U : Unicode} {HU : UnicodeLaws U}.

Lemma lstrip_Forall (P : char → Prop) s : Forall P s → Forall P (lstrip s).
Proof.
  induction 1 as [|c s Hc Hs IH]; simpl; [done|].
  destruct (py_isspace c); [done|by constructor].
Qed.

Lemma strip_Forall (P : char → Prop) s : Forall P s → Forall P (strip s).
Proof.
  intros Hs. unfold strip, rstrip.
  by apply Forall_reverse, lstrip_Forall, Forall_reverse, lstrip_Forall.
Qed.

Lemma pairs_load_words_loop_eq f words :
  FilterPairs.load_words_loop f words
  = words ++ (py_lower <$> List.filter str_isalpha (strip <$> f)).
Proof.
  revert words. induction f as [|line f IH]; intros words.
  { simpl. by rewrite app_nil_r. }
  rewrite fmap_cons. cbn [FilterPairs.load_words_loop List.filter].
  rewrite !IH.
  destruct (str_isalpha (strip line)) eqn:Ha; simpl.
  - unfold str_isalpha in Ha. apply andb_true_iff in Ha as [Hne _].
    apply negb_true_iff in Hne. rewrite Hne. csimpl.
    by rewrite <-app_assoc.
  - by destruct (bool_decide (strip line = [])).
Qed.

Lemma pairs_load_words_eq f :
  FilterPairs.load_words f
  = py_lower <$> List.filter str_isalpha (strip <$> f).
Proof. unfold FilterPairs.load_words. by rewrite pairs_load_words_loop_eq. Qed.

Lemma isalpha_ascii_lower (w : str) :
  Forall (λ c, c < 128) w → str_isalpha w = true →
  w ≠ [] ∧ Forall (λ c, is_az c = true) (ascii_lower <$> w).
Proof.
  intros Hw Ha. unfold str_isalpha in Ha.
  apply andb_true_iff in Ha as [Hne Ha]. split.
  { apply negb_true_iff, bool_decide_eq_false in Hne. done. }
  rewrite forallb_elem_of in Ha. rewrite Forall_forall in Hw.
  apply Forall_fmap, Forall_forall. intros c Hc. simpl.
  apply ascii_lower_is_az. unfold is_letter.
  rewrite <-isalpha_ascii by by apply Hw. by apply Ha.
Qed.
End pairs_ascii.

(** X11: on ASCII input [normalize_letters] of filter_pairs.py does what the
    copy in filter.py does: it leaves the letters A-Z and a-z, lowered and in
    order, so that its result is made of the letters a-z and a second run
    changes nothing. *)
Theorem pairs_normalize_letters_on_ascii {U : Unicode} {HU : UnicodeLaws U}
    (s : str) :
  Forall (λ c, c < 128) s →
  FilterPairs.normalize_letters s = Filter.normalize_letters s
  ∧ FilterPairs.normalize_letters s
    = ascii_lower <$> List.filter is_letter s
  ∧ Forall (λ c, is_az c = true) (FilterPairs.normalize_letters s)
  ∧ FilterPairs.normalize_letters (FilterPairs.normalize_letters s)
    = FilterPairs.normalize_letters s.
Proof.
  intros Hs. pose proof (pairs_normalize_letters_ascii s Hs) as Heq.
  split; [done|]. rewrite Heq.
  split; [apply normalize_letters_eq|].
  split; [apply normalize_letters_az|].
  rewrite pairs_normalize_letters_ascii; [apply normalize_letters_idem|].
  eapply Forall_impl; [apply normalize_letters_az|].
  intros c Hc%is_az_spec. simpl. lia.
Qed.

Lemma pairs_normalize_letters_on_ascii_witness :
  Forall (λ c, c < 128) (lit "Abc-dEf ghi_JKL")
  ∧ FilterPairs.normalize_letters (U:=cpython_fragment) (lit "Abc-dEf ghi_JKL")
    = Filter.normalize_letters (U:=cpython_fragment) (lit "Abc-dEf ghi_JKL").
Proof.
  assert (Forall (λ c, c < 128) (lit "Abc-dEf ghi_JKL")) as Hs.
  { apply (bool_decide_unpack _). vm_compute. exact I. }
  split; [exact Hs|].
  exact (proj1 (pairs_normalize_letters_on_ascii (U:=cpython_fragment) _ Hs)).
Defined.

(** X12: of an ASCII word list [load_words] of filter_pairs.py returns, in
    order, the lines that once stripped are nonempty and all letters, each
    stripped and lowered; so every word it returns is nonempty and made of
    the letters a-z. *)
Theorem pairs_load_words_on_ascii {U : Unicode} {HU : UnicodeLaws U}
    (f : list str) :
  Forall (Forall (λ c, c < 128)) f →
  FilterPairs.load_words f
  = (λ w : str, ascii_lower <$> w) <$> List.filter str_isalpha (strip <$> f)
  ∧ Forall (λ w, w ≠ [] ∧ Forall (λ c, is_az c = true) w)
      (FilterPairs.load_words f).
Proof.
  intros Hf. rewrite pairs_load_words_eq.
  assert (Forall (λ w, Forall (λ c, c < 128) w ∧ str_isalpha w = true)
            (List.filter str_isalpha (strip <$> f))) as Hkept.
  { apply Forall_forall.
    intros w [(l & -> & Hl)%list_elem_of_In%list_elem_of_fmap Ha]
      %list_elem_of_In%filter_In.
    split; [|done]. apply strip_Forall.
    rewrite Forall_forall in Hf. by apply Hf. }
  assert (py_lower <$> List.filter str_isalpha (strip <$> f)
          = (λ w : str, ascii_lower <$> w) <$> List.filter str_isalpha (strip <$> f)) as ->.
  { induction Hkept as [|w ws [Hw _] _ IH]; [done|]. csimpl.
    by rewrite IH, lower_ascii. }
  split; [done|]. apply Forall_fmap.
  eapply Forall_impl; [exact Hkept|]. intros w [Hw Ha]. simpl.
  destruct (isalpha_ascii_lower w Hw Ha) as [Hne Haz].
  split; [by destruct w|done].
Qed.

Lemma pairs_load_words_on_ascii_witness :
  Forall (Forall (λ c, c < 128)) [lit " Fad"; lit "x-ray"; []; lit "GAG "]
  ∧ FilterPairs.load_words (U:=cpython_fragment)
      [lit " Fad"; lit "x-ray"; []; lit "GAG "]
    = (λ w : str, ascii_lower <$> w)
        <$> List.filter (str_isalpha (U:=cpython_fragment))
              (strip (U:=cpython_fragment)
                 <$> [lit " Fad"; lit "x-ray"; []; lit "GAG "]).
Proof.
  assert (Forall (Forall (λ c, c < 128))
            [lit " Fad"; lit "x-ray"; []; lit "GAG "]) as Hf.
  { apply (bool_decide_unpack _). vm_compute. exact I. }
  split; [exact Hf|].
  exact (proj1 (pairs_load_words_on_ascii (U:=cpython_fragment) _ Hf)).
Defined.

Example ex_pairs_load_words :
  FilterPairs.load_words (U:=cpython_fragment)
    [lit " Fad"; lit "x-ray"; []; lit "GAG "]
  = [lit "fad"; lit "gag"].
Proof. vm_compute. reflexivity. Qed.

(** ** More on the pair search *)

(** X13: [find_pairs] raises IndexError exactly when the list holds an empty
    word. *)
Theorem find_pairs_index_error (words : list str) (letters_set : gset N) :
  FilterPairs.find_pairs words letters_set = inl IndexError ↔ [] ∈ words.
Proof.
  split.
  - intros Herr. destruct (decide ([] ∈ words)) as [|Hno]; [done|].
    rewrite find_pairs_naive in Herr; [done|].
    apply Forall_forall. by intros w Hw ->.
  - intros Hin.
    destruct (FilterPairs.find_pairs words letters_set) as [[]|r] eqn:Hrun;
      [done|].
    apply find_pairs_nonempty in Hrun. rewrite Forall_forall in Hrun.
    by destruct (Hrun [] Hin).
Qed.

(** X14: both directions are searched: when (a, b) is returned, (b, a) is
    returned as well exactly when [b] ends with the letter [a] begins
    with. *)
Theorem find_pairs_reverse (words : list str) (letters_set : gset N)
    (r : list (str * str)) (a b : str) :
  FilterPairs.find_pairs words letters_set = inr r →
  (a, b) ∈ r →
  (b, a) ∈ r ↔ last b = head a.
Proof.
  intros Hrun Hab.
  pose proof (find_pairs_nonempty _ _ _ Hrun) as Hne.
  rewrite (find_pairs_naive words letters_set Hne) in Hrun.
  injection Hrun as <-.
  apply elem_of_naive_pairs in Hab as (Ha & Hb & _ & Hcov).
  rewrite elem_of_naive_pairs. unfold chain_rule, coverage_rule in *.
  split; [tauto|]. intros Hchain.
  rewrite Forall_forall in Hne.
  repeat split; try done.
  - apply last_is_Some. by apply Hne.
  - by rewrite (comm_L (∪)).
Qed.

Lemma find_pairs_reverse_witness :
  (FilterPairs.find_pairs sample_words sample_letters
   = inr [(lit "abcdefg", lit "ghijkl"); (lit "gfedcba", lit "alkjihg");
          (lit "alkjihg", lit "gfedcba")]
   ∧ (lit "gfedcba", lit "alkjihg")
     ∈ [(lit "abcdefg", lit "ghijkl"); (lit "gfedcba", lit "alkjihg");
        (lit "alkjihg", lit "gfedcba")])
  ∧ ((lit "alkjihg", lit "gfedcba")
     ∈ [(lit "abcdefg", lit "ghijkl"); (lit "gfedcba", lit "alkjihg");
        (lit "alkjihg", lit "gfedcba")]
     ↔ last (lit "alkjihg") = head (lit "gfedcba")).
Proof.
  assert (FilterPairs.find_pairs sample_words sample_letters
          = inr [(lit "abcdefg", lit "ghijkl"); (lit "gfedcba", lit "alkjihg");
                 (lit "alkjihg", lit "gfedcba")]) as Hrun
    by (vm_compute; reflexivity).
  assert ((lit "gfedcba", lit "alkjihg")
          ∈ [(lit "abcdefg", lit "ghijkl"); (lit "gfedcba", lit "alkjihg");
             (lit "alkjihg", lit "gfedcba")]) as Hin.
  { apply (bool_decide_unpack _). vm_compute. exact I. }
  split; [by split|].
  exact (find_pairs_reverse _ _ _ _ _ Hrun Hin).
Defined.

Lemma bind_sublist_pointwise {A B} (f g : A → list B) (l : list A) :
  (∀ x, f x `sublist_of` g x) → (l ≫= f) `sublist_of` (l ≫= g).
Proof.
  intros Hfg. induction l as [|x l IH]; [done|].
  rewrite !bind_cons. by apply sublist_app.
Qed.

(** X15: asking for more letters to be covered can only take pairs away:
    the pairs found for a larger set of letters are a sublist of the pairs
    found for a smaller one. *)
Theorem find_pairs_antitone (words : list str) (ls ls' : gset N)
    (r : list (str * str)) :
  ls ⊆ ls' →
  FilterPairs.find_pairs words ls = inr r →
  ∃ r', FilterPairs.find_pairs words ls' = inr r' ∧ r' `sublist_of` r.
Proof.
  intros Hsub Hrun.
  pose proof (find_pairs_nonempty _ _ _ Hrun) as Hne.
  rewrite (find_pairs_naive words ls Hne) in Hrun. injection Hrun as <-.
  exists (naive_pairs words ls'). split; [by apply find_pairs_naive|].
  unfold naive_pairs. apply bind_sublist_pointwise. intros a.
  apply bind_sublist_pointwise. intros b.
  destruct (decide (chain_rule a b ∧ coverage_rule ls' a b)) as [[Hc Hcov]|];
    [|apply sublist_nil_l].
  rewrite decide_True; [done|]. split; [done|].
  unfold coverage_rule in *. by trans ls'.
Qed.

Lemma find_pairs_antitone_witness :
  ((list_to_set (lit "abcdefg") : gset N) ⊆ sample_letters
   ∧ FilterPairs.find_pairs sample_words (list_to_set (lit "abcdefg"))
     = inr [(lit "abcdefg", lit "ghijkl"); (lit "abcdefg", lit "gfedcba");
            (lit "la", lit "abcdefg"); (lit "gfedcba", lit "abcdefg");
            (lit "gfedcba", lit "alkjihg"); (lit "alkjihg", lit "gfedcba")])
  ∧ ∃ r', FilterPairs.find_pairs sample_words sample_letters = inr r'
          ∧ r' `sublist_of`
               [(lit "abcdefg", lit "ghijkl"); (lit "abcdefg", lit "gfedcba");
                (lit "la", lit "abcdefg"); (lit "gfedcba", lit "abcdefg");
                (lit "gfedcba", lit "alkjihg"); (lit "alkjihg", lit "gfedcba")].
Proof.
  assert ((list_to_set (lit "abcdefg") : gset N) ⊆ sample_letters) as Hsub.
  { apply (bool_decide_unpack _). vm_compute. exact I. }
  assert (FilterPairs.find_pairs sample_words (list_to_set (lit "abcdefg"))
          = inr [(lit "abcdefg", lit "ghijkl"); (lit "abcdefg", lit "gfedcba");
                 (lit "la", lit "abcdefg"); (lit "gfedcba", lit "abcdefg");
                 (lit "gfedcba", lit "alkjihg"); (lit "alkjihg", lit "gfedcba")])
    as Hrun by (vm_compute; reflexivity).
  split; [by split|].
  exact (find_pairs_antitone _ _ _ _ Hsub Hrun).
Defined.

Lemma index_by_start_values (words : list str) (m m' : gmap N (list str)) :
  FilterPairs.index_by_start words m = inr m' →
  (∀ c ws, m !! c = Some ws → ws ≠ []) →
  ∀ c ws, m' !! c = Some ws → ws ≠ [].
Proof.
  revert m. induction words as [|w words IH]; intros m Hrun Hm.
  { by injection Hrun as <-. }
  destruct w as [|w0 w']; [done|]. simpl in Hrun.
  apply (IH _ Hrun). intros c ws.
  destruct (decide (w0 = c)) as [->|Hc].
  - rewrite lookup_insert_eq. intros [= <-]. by destruct (default [] (m !! c)).
  - rewrite lookup_insert_ne by done. apply Hm.
Qed.

(** X16: the index built from nonempty words has, under each letter, the
    words that begin with it, in the order of the list; a letter no word
    begins with is not a key. *)
Theorem index_by_start_lookup (words : list str) :
  Forall (λ w, w ≠ []) words →
  ∃ by_start,
    FilterPairs.index_by_start words ∅ = inr by_start
    ∧ ∀ c, by_start !! c
           = match filter (λ w, head w = Some c) words with
             | [] => None
             | w :: ws => Some (w :: ws)
             end.
Proof.
  intros Hne.
  destruct (index_by_start_spec words ∅ Hne) as (by_start & Hrun & Hlook).
  exists by_start. split; [done|]. intros c.
  specialize (Hlook c). rewrite lookup_empty in Hlook. simpl in Hlook.
  destruct (by_start !! c) as [ws|] eqn:Hc; simpl in Hlook.
  - rewrite <-Hlook.
    assert (ws ≠ []) as Hws.
    { apply (index_by_start_values words ∅ by_start Hrun) with c; [|done].
      intros ??. by rewrite lookup_empty. }
    by destruct ws.
  - by rewrite <-Hlook.
Qed.

Lemma index_by_start_lookup_witness :
  Forall (λ w : str, w ≠ []) sample_words
  ∧ ∃ by_start,
      FilterPairs.index_by_start sample_words ∅ = inr by_start
      ∧ ∀ c, by_start !! c
             = match filter (λ w, head w = Some c) sample_words with
               | [] => None
               | w :: ws => Some (w :: ws)
               end.
Proof.
  split; [exact sample_words_nonempty|].
  exact (index_by_start_lookup sample_words sample_words_nonempty).
Defined.

(** ** [main] of filter_pairs.py *)

Lemma pairs_split_sides_inr twelve sides :
  FilterPairs.split_sides twelve = inr sides → concat sides = twelve.
Proof.
  unfold FilterPairs.split_sides. case_decide as Hlen; [done|].
  intros [= <-]. apply concat_slices. lia.
Qed.

(** X17: every pair [main] of filter_pairs.py finds, whatever the word list
    holds, is made of two words of at least three characters, the second
    beginning with the letter the first ends with, whose letters together
    are exactly the letters of the square. *)
Theorem pairs_main_sound {U : Unicode} (letters : str) (wordlist : list str)
    (o : FilterPairs.outcome) (ps : list (str * str)) (a b : str) :
  FilterPairs.main letters wordlist = inr o →
  FilterPairs.pairs o = Some ps →
  (a, b) ∈ ps →
  FilterPairs.exit_code o = 0%Z
  ∧ (3 ≤ length a)%nat ∧ (3 ≤ length b)%nat
  ∧ chain_rule a b
  ∧ list_to_set a ∪ list_to_set b
    = (list_to_set (FilterPairs.normalize_letters letters) : gset N).
Proof.
  unfold FilterPairs.main.
  destruct (FilterPairs.split_sides _) as [[]|sides] eqn:Hsplit.
  { by intros [= <-]. }
  apply pairs_split_sides_inr in Hsplit. rewrite Hsplit.
  set (ls := list_to_set (FilterPairs.normalize_letters letters) : gset N).
  set (words := List.filter _ _).
  destruct (FilterPairs.find_pairs words ls) as [|r] eqn:Hrun; [done|].
  intros [= <-] [= <-] Hab. simpl.
  pose proof (find_pairs_nonempty _ _ _ Hrun) as Hne.
  rewrite (find_pairs_naive words ls Hne) in Hrun. injection Hrun as <-.
  apply elem_of_naive_pairs in Hab as (Ha & Hb & Hchain & Hcov).
  assert (∀ w, w ∈ words → list_to_set w ⊆ ls ∧ (3 ≤ length w)%nat) as Hw.
  { intros w [_ [H1%bool_decide_eq_true H2%bool_decide_eq_true]%andb_true_iff]
      %list_elem_of_In%filter_In. done. }
  destruct (Hw a Ha) as [Hsa Hla]. destruct (Hw b Hb) as [Hsb Hlb].
  do 4 (split; [done|]).
  apply (anti_symm (⊆)); [by apply union_least|done].
Qed.

Lemma pairs_main_sound_witness :
  FilterPairs.main (U:=cpython_fragment) (lit "abc-def-ghi-jkl")
    [lit "Abcdefg"; lit "ghijkl"; lit "la"; lit "x-ray"]
  = inr (FilterPairs.Outcome 0 [] (Some [(lit "abcdefg", lit "ghijkl")]))
  ∧ list_to_set (lit "abcdefg") ∪ list_to_set (lit "ghijkl")
    = (list_to_set
         (FilterPairs.normalize_letters (U:=cpython_fragment)
            (lit "abc-def-ghi-jkl")) : gset N).
Proof.
  assert (FilterPairs.main (U:=cpython_fragment) (lit "abc-def-ghi-jkl")
            [lit "Abcdefg"; lit "ghijkl"; lit "la"; lit "x-ray"]
          = inr (FilterPairs.Outcome 0 []
                   (Some [(lit "abcdefg", lit "ghijkl")]))) as Hrun
    by (vm_compute; reflexivity).
  split; [exact Hrun|].
  refine (proj2 (proj2 (proj2 (proj2
    (pairs_main_sound (U:=cpython_fragment) _ _ _ _
       (lit "abcdefg") (lit "ghijkl") Hrun eq_refl _))))).
  apply (bool_decide_unpack _). vm_compute. exact I.
Defined.

(** X18: on a square that does not normalise to 12 characters filter_pairs.py
    stops with exit code 2, having printed the report with the count on
    stdout; it finds no pair and writes no file, whatever the word list
    is. *)
Theorem pairs_script_bad_square {U : Unicode} (c : FilterPairsScript.cli)
    (wordlist : str) :
  length (FilterPairs.normalize_letters (FilterPairsScript.letters c))
  ≠ 12%nat →
  FilterPairsScript.main c wordlist
  = inr (FilterPairsScript.Run 2
           [lit ("Input error: Expected 12 letters after normalization; got "
                 +:+ pretty (length (FilterPairs.normalize_letters
                                       (FilterPairsScript.letters c)))
                 +:+ ".")]
           None).
Proof.
  intros Hlen. unfold FilterPairsScript.main, FilterPairs.main.
  unfold FilterPairs.split_sides. by rewrite decide_True.
Qed.

Lemma pairs_script_bad_square_witness :
  length (FilterPairs.normalize_letters (U:=cpython_fragment)
            (lit "abc-def-ghi-jk")) ≠ 12%nat
  ∧ FilterPairsScript.main (U:=cpython_fragment)
      (FilterPairsScript.Cli (lit "abc-def-ghi-jk") SortCombinedLen None)
      (join_lines sample_words)
    = inr (FilterPairsScript.Run 2
             [lit "Input error: Expected 12 letters after normalization; got 11."]
             None).
Proof.
  assert (length (FilterPairs.normalize_letters (U:=cpython_fragment)
                    (lit "abc-def-ghi-jk")) ≠ 12%nat) as Hlen
    by (vm_compute; lia).
  split; [exact Hlen|].
  exact (pairs_script_bad_square (U:=cpython_fragment)
           (FilterPairsScript.Cli (lit "abc-def-ghi-jk") SortCombinedLen None)
           (join_lines sample_words) Hlen).
Defined.

(** ** From filter.py to filter_pairs.py *)


Section pipeline.
Context {U : Unicode} {HU : UnicodeLaws U}.


End pipeline.



(** ** The file filter_pairs.py writes *)

Lemma sort_pairs_Permutation by_ pairs :
  FilterPairsScript.sort_pairs by_ pairs ≡ₚ pairs.
Proof. destruct by_; apply list_sort_Permutation. Qed.

Lemma az_not_line_end (w : str) :
  Forall (λ ch, is_az ch = true) w → (NEWLINE ∉ w) ∧ (CR ∉ w).
Proof.
  intros Hw. rewrite Forall_forall in Hw. split; by intros ?%Hw.
Qed.

Lemma pair_line_one_line (ab : str * str) :
  Forall (λ ch, is_az ch = true) ab.1 →
  Forall (λ ch, is_az ch = true) ab.2 →
  FilterPairsScript.pair_line ab ≠ []
  ∧ (NEWLINE ∉ FilterPairsScript.pair_line ab)
  ∧ (CR ∉ FilterPairsScript.pair_line ab).
Proof.
  intros [Ha1 Ha2]%az_not_line_end [Hb1 Hb2]%az_not_line_end.
  unfold FilterPairsScript.pair_line. split; [by destruct (ab.1)|].
  split; intros [?|[[=]|?]%elem_of_cons]%elem_of_app; done.
Qed.

(** X20: when filter_pairs.py, given an ASCII square, writes its output file,
    the search went through with exit code 0, every word of every pair found
    is made of the letters a-z only, and the file, read back line by line,
    has one line per pair, in the sorted order: the first word, one space,
    the second word. *)
Theorem pairs_file_read_back {U : Unicode} {HU : UnicodeLaws U}
    (c : FilterPairsScript.cli) (wordlist : str)
    (r : FilterPairsScript.run) (text : str) :
  Forall (λ ch, ch < 128) (FilterPairsScript.letters c) →
  FilterPairsScript.main c wordlist = inr r →
  FilterPairsScript.written r = Some text →
  ∃ ps,
    FilterPairs.main (FilterPairsScript.letters c) (read_lines wordlist)
    = inr (FilterPairs.Outcome 0 [] (Some ps))
    ∧ Forall (λ ab : str * str, Forall (λ ch, is_az ch = true) ab.1
                                ∧ Forall (λ ch, is_az ch = true) ab.2) ps
    ∧ read_lines text
      = (λ ab, as_line (FilterPairsScript.pair_line ab))
          <$> FilterPairsScript.sort_pairs (FilterPairsScript.sort c) ps.
Proof.
  intros Hletters. unfold FilterPairsScript.main, FilterPairs.main.
  destruct (FilterPairs.split_sides _) as [[]|sides] eqn:Hsplit.
  { simpl. by intros [= <-]. }
  apply pairs_split_sides_inr in Hsplit. rewrite Hsplit.
  rewrite (pairs_normalize_letters_ascii _ Hletters).
  set (ls := list_to_set (Filter.normalize_letters _) : gset N).
  set (words := List.filter _ _).
  destruct (FilterPairs.find_pairs words ls) as [|ps] eqn:Hrun; [done|]. simpl.
  destruct (FilterPairsScript.output c) as [path|]; [|by intros [= <-]].
  intros [= <-] [= <-]. exists ps. split; [done|].
  assert (Forall (λ ab : str * str, Forall (λ ch, is_az ch = true) ab.1
                                    ∧ Forall (λ ch, is_az ch = true) ab.2) ps)
    as Hps.
  { pose proof (find_pairs_nonempty _ _ _ Hrun) as Hne.
    rewrite (find_pairs_naive words ls Hne) in Hrun. injection Hrun as <-.
    assert (∀ w : str, w ∈ words → Forall (λ ch, is_az ch = true) w) as Hw.
    { intros w [_ [Hsub%bool_decide_eq_true _]%andb_true_iff]
        %list_elem_of_In%filter_In.
      apply Forall_forall. intros ch Hch.
      assert (ch ∈ ls) as Hin by (apply Hsub; by apply elem_of_list_to_set).
      apply elem_of_list_to_set in Hin.
      pose proof (normalize_letters_az (FilterPairsScript.letters c)) as Haz.
      rewrite Forall_forall in Haz. by apply Haz. }
    apply Forall_forall. intros [a b] (Ha & Hb & _)%elem_of_naive_pairs.
    split; by apply Hw. }
  split; [done|].
  rewrite (list_fmap_compose FilterPairsScript.pair_line as_line).
  rewrite file_text_join, read_lines_concat; [done|..];
    apply Forall_fmap; rewrite sort_pairs_Permutation;
    (eapply Forall_impl; [exact Hps|]); intros ab [Ha Hb]; simpl;
    destruct (pair_line_one_line ab Ha Hb) as (? & ? & ?); done.
Qed.

Lemma pairs_file_read_back_witness :
  (Forall (λ ch, ch < 128) (lit "abc-def-ghi-jkl")
   ∧ FilterPairsScript.main (U:=cpython_fragment)
       (FilterPairsScript.Cli (lit "abc-def-ghi-jkl") SortCombinedLen
          (Some "pairs.txt"))
       (join_lines [lit "Adgjbe"; lit "ehkcfil"; lit "la"; lit "x-ray"])
     = inr (FilterPairsScript.Run 0 [lit "Wrote 1 pairs to pairs.txt"]
              (Some (as_line (lit "adgjbe ehkcfil")))))
  ∧ ∃ ps,
      FilterPairs.main (U:=cpython_fragment) (lit "abc-def-ghi-jkl")
        (read_lines
           (join_lines [lit "Adgjbe"; lit "ehkcfil"; lit "la"; lit "x-ray"]))
      = inr (FilterPairs.Outcome 0 [] (Some ps))
      ∧ Forall (λ ab : str * str, Forall (λ ch, is_az ch = true) ab.1
                                  ∧ Forall (λ ch, is_az ch = true) ab.2) ps
      ∧ read_lines (as_line (lit "adgjbe ehkcfil"))
        = (λ ab, as_line (FilterPairsScript.pair_line ab))
            <$> FilterPairsScript.sort_pairs SortCombinedLen ps.
Proof.
  assert (Forall (λ ch, ch < 128) (lit "abc-def-ghi-jkl")) as Hl
    by (apply (bool_decide_unpack _); vm_compute; exact I).
  assert (FilterPairsScript.main (U:=cpython_fragment)
            (FilterPairsScript.Cli (lit "abc-def-ghi-jkl") SortCombinedLen
               (Some "pairs.txt"))
            (join_lines [lit "Adgjbe"; lit "ehkcfil"; lit "la"; lit "x-ray"])
          = inr (FilterPairsScript.Run 0 [lit "Wrote 1 pairs to pairs.txt"]
                   (Some (as_line (lit "adgjbe ehkcfil"))))) as Hrun
    by (vm_compute; reflexivity).
  split; [split; [exact Hl|exact Hrun]|].
  exact (pairs_file_read_back (U:=cpython_fragment)
           (FilterPairsScript.Cli (lit "abc-def-ghi-jkl") SortCombinedLen
              (Some "pairs.txt"))
           _ _ _ Hl Hrun eq_refl).
Defined.
